(** * Audio-reactive procedural surface: the host loop and its shaders

    A shallow embedding of the two front-end variants of the repository:

    - the audio-reactive variant ([src/unnamed/part_000]): shaders with
      [uAudio], the [animate] loop with the pointer lerp at rate 0.08 and
      the bass average over the analyser's byte frequency data, the volume
      handler and the effect cleanup;
    - the landing-page variant ([src/unnamed/part_001]): the same [hash]
      and [noise], a height without audio, a pointer lerp at rate 0.2 in
      the pointer handler, a fragment shader whose helper [palette] does
      not type-check, and an effect that throws at its first statement,
      before it starts its loop.

    Numbers.  The host side (JavaScript) computes on IEEE doubles and the
    shaders on GLSL floats.  The embedding is over exact arithmetic: the
    host side over the rationals [Q], which compute, with the values
    that are not finite numbers ([NaN], as adding [undefined] produces
    it, and the infinities of a division by zero) kept apart; the
    shaders over the reals [R], because [hash] needs [sin] and [length]
    needs [sqrt].  Rounding is not modelled.

    The libraries the code calls (React, three.js, the DOM and Web Audio)
    are modelled as far as the code uses them: an effect with its
    dependency list and cleanup, [Vector2.set] and [Vector2.lerp],
    [Clock.getElapsedTime], the list of animation frame callbacks,
    [removeChild], and the analyser's byte frequency data.  The resize
    observer only appears as a subscription to release. *)

From Stdlib Require Import ZArith QArith Qabs Qminmax Qround Qpower List Bool.
From Stdlib Require Import Reals Qreals Lia Psatz.
Import ListNotations.

(** ** JavaScript numbers as the host code meets them *)

Module Js.

Local Open Scope Q_scope.

(** A number value: a finite number, an infinity or NaN.  Signed zeros
    are not distinguished. *)
Inductive num : Type :=
| Num (q : Q)
| PosInf
| NegInf
| NaN.

(** A value read from a typed array: the element, or [undefined] when
    the index is out of range. *)
Inductive value : Type :=
| VNum (n : num)
| Undefined.

(** [ToNumber]: [undefined] becomes [NaN]. *)
Definition to_number (v : value) : num :=
  match v with
  | VNum n => n
  | Undefined => NaN
  end.

(** [a + b] on numbers. *)
Definition add (a b : num) : num :=
  match a, b with
  | NaN, _ | _, NaN => NaN
  | Num x, Num y => Num (x + y)
  | PosInf, NegInf | NegInf, PosInf => NaN
  | PosInf, _ | _, PosInf => PosInf
  | NegInf, _ | _, NegInf => NegInf
  end.

(** Sign of an infinite quotient [x / 0] or [inf / y]. *)
Definition signed_inf (negative : bool) : num :=
  if negative then NegInf else PosInf.

(** [a / b] on numbers: a zero divisor gives an infinity (or [NaN] for
    [0 / 0]); no division raises. *)
Definition div (a b : num) : num :=
  match a, b with
  | NaN, _ | _, NaN => NaN
  | Num x, Num y =>
      if Qeq_bool y 0
      then (if Qeq_bool x 0 then NaN else signed_inf (Qle_bool x 0))
      else Num (x / y)
  | Num _, (PosInf | NegInf) => Num 0
  | PosInf, Num y => signed_inf (negb (Qle_bool 0 y))
  | NegInf, Num y => signed_inf (Qle_bool 0 y)
  | (PosInf | NegInf), (PosInf | NegInf) => NaN
  end.

(** [a * b] on numbers: zero times an infinity is [NaN]. *)
Definition mul (a b : num) : num :=
  match a, b with
  | NaN, _ | _, NaN => NaN
  | Num x, Num y => Num (x * y)
  | Num x, PosInf | PosInf, Num x =>
      if Qeq_bool x 0 then NaN else signed_inf (Qle_bool x 0)
  | Num x, NegInf | NegInf, Num x =>
      if Qeq_bool x 0 then NaN else signed_inf (Qle_bool 0 x)
  | PosInf, PosInf | NegInf, NegInf => PosInf
  | PosInf, NegInf | NegInf, PosInf => NegInf
  end.

(** [Math.max(0, Math.min(1, v))] on a finite number. *)
Definition clamp01 (v : Q) : Q := Qmax 0 (Qmin 1 v).

(** How a piece of host code ends: normally, or by throwing. *)
Inductive error : Type :=
| InvalidInputError
| NotFoundError
| TypeError.

Inductive completion (A : Type) : Type :=
| Normal (a : A)
| Throw (e : error).

Arguments Normal {A} a.
Arguments Throw {A} e.

(** A number that is a finite value in the closed unit interval. *)
Definition in_unit (n : num) : Prop :=
  match n with
  | Num q => 0 <= q <= 1
  | _ => False
  end.

End Js.

(** ** The audio feature extractor (part_000, [animate], lines 180-193) *)

Module Audio.

Import Js.
Local Open Scope Z_scope.

(** A [Uint8Array]: its elements are integers of 8 bits. *)
Definition Uint8Array : Type := list Z.

Definition is_uint8 (x : Z) : Prop := 0 <= x <= 255.

Definition well_formed (a : Uint8Array) : Prop := Forall is_uint8 a.

(** [a[i]]: the element, or [undefined] past the end. *)
Definition get (a : Uint8Array) (i : nat) : value :=
  match nth_error a i with
  | Some x => VNum (Num (inject_Z x))
  | None => Undefined
  end.

(** [Math.max(4, Math.floor(len * 0.2))].  The double nearest to 0.2 is
    [0.2 + 0.2 * 2^-54]; for the length of an array the rounded product
    has the floor of the exact fifth, which is what is computed here. *)
Definition cutoff (len : nat) : Z :=
  Z.max 4 (Qfloor (inject_Z (Z.of_nat len) * (2 # 10))).

(** [for (let i = 0; i < cutoff; i++) sum += a[i]], from index [i] for
    [n] more rounds. *)
Fixpoint sum_loop (a : Uint8Array) (i n : nat) (sum : num) : num :=
  match n with
  | O => sum
  | S n' => sum_loop a (S i) n' (add sum (to_number (get a i)))
  end.

(** The body of the [if (analyser && dataArray)] block up to [avg]:
    [sum / cutoff / 255].  Nothing in it throws. *)
Definition average (a : Uint8Array) : num :=
  let len := length a in
  let c := cutoff len in
  let sum := sum_loop a 0 (Z.to_nat c) (Num 0) in
  div (div sum (Num (inject_Z c))) (Num 255).

(** The block as the operation the specification names [update]: it
    completes normally with the average. *)
Definition update (a : Uint8Array) : completion num :=
  Normal (average a).

(** The arithmetic mean of the first [c] entries, over 255, as a
    rational: the value as the specification words it. *)
Definition bass_mean (a : Uint8Array) : Q :=
  let c := cutoff (length a) in
  (inject_Z (fold_right Z.add 0%Z (firstn (Z.to_nat c) a)) / inject_Z c / 255)%Q.

End Audio.

(** ** [THREE.Vector2] and the pointer smoother *)

Module Three.

Local Open Scope Q_scope.

Record Vector2 : Type := mkVector2 { x : Q; y : Q }.

(** [this.set(x, y)]. *)
Definition set (this : Vector2) (x' y' : Q) : Vector2 :=
  mkVector2 x' y'.

(** [this.lerp(v, alpha)]:
    [this.x += (v.x - this.x) * alpha; this.y += (v.y - this.y) * alpha]. *)
Definition lerp (this v : Vector2) (alpha : Q) : Vector2 :=
  mkVector2 (x this + (x v - x this) * alpha)
            (y this + (y v - y this) * alpha).

(** Equality of vectors up to the equality of rationals. *)
Definition veq (a b : Vector2) : Prop := x a == x b /\ y a == y b.

(** The square [-1,1] x [-1,1] of normalized device coordinates. *)
Definition in_ndc (v : Vector2) : Prop :=
  (-(1) <= x v <= 1) /\ (-(1) <= y v <= 1).

(** [b] lies between [a] and [c], whichever way round they are. *)
Definition between (a b c : Q) : Prop :=
  (a <= c -> a <= b <= c) /\ (c <= a -> c <= b <= a).

(** Squared Euclidean distance. *)
Definition dist2 (a b : Vector2) : Q :=
  (x a - x b) * (x a - x b) + (y a - y b) * (y a - y b).

(** Euclidean distance, a real number. *)
Definition dist (a b : Vector2) : R := sqrt (Q2R (dist2 a b)).

End Three.

Module Pointer.

Import Three.
Local Open Scope Q_scope.

(** What [getBoundingClientRect()] returns, as far as the handler reads
    it.  A pointer event reaches the canvas only while the canvas has a
    positive size; the division below is the rationals' and differs from
    the host's at a zero width or height. *)
Record DOMRect : Type := mkRect { left : Q; top : Q; width : Q; height : Q }.

Record PointerEvent : Type := mkEvent { clientX : Q; clientY : Q }.

(** part_000, [onPointer] (lines 136-141), and the first three lines of
    part_001's [onPointerMove] (lines 165-168): the new value of the raw
    pointer sample [mouseRef.current]. *)
Definition onPointer (rect : DOMRect) (e : PointerEvent) (mouse : Vector2)
  : Vector2 :=
  let x := (clientX e - left rect) / width rect in
  let y := (clientY e - top rect) / height rect in
  set mouse (x * 2 - 1) (-(y * 2 - 1)).

(** The smoothing state: [current] is [uniforms.uMouse.value], [target]
    is [mouseRef.current]. *)
Record Smoother : Type := mkSmoother { current : Vector2; target : Vector2 }.

(** One step at a rate: [uMouse.value.lerp(mouse, rate)]. *)
Definition step (rate : Q) (s : Smoother) : Smoother :=
  mkSmoother (lerp (current s) (target s) rate) (target s).

(** part_000, [animate], line 177: the per-frame step. *)
Definition rate_000 : Q := 8 # 100.
Definition step_000 : Smoother -> Smoother := step rate_000.

(** part_001, [onPointerMove], lines 164-170: the sample is stored and
    the step is taken in the same handler. *)
Definition rate_001 : Q := 2 # 10.
Definition onPointerMove_001 (rect : DOMRect) (e : PointerEvent)
  (s : Smoother) : Smoother :=
  step rate_001 (mkSmoother (current s) (onPointer rect e (target s))).

(** [k] steps with an unchanged target. *)
Fixpoint steps (rate : Q) (k : nat) (s : Smoother) : Smoother :=
  match k with
  | O => s
  | S k' => steps rate k' (step rate s)
  end.

End Pointer.

(** ** GLSL built-ins over the reals *)

Module Glsl.

Local Open Scope R_scope.

Record vec2 : Type := mkvec2 { vx : R; vy : R }.
Record vec3 : Type := mkvec3 { cx : R; cy : R; cz : R }.
Record vec4 : Type := mkvec4 { wx : R; wy : R; wz : R; ww : R }.

(** A 4x4 matrix by its rows. *)
Record mat4 : Type := mkmat4 { row0 : vec4; row1 : vec4; row2 : vec4; row3 : vec4 }.

Definition floor (a : R) : R := IZR (Int_part a).
Definition fract (a : R) : R := a - floor a.
Definition clamp (a lo hi : R) : R := Rmin (Rmax a lo) hi.
Definition mix (a b t : R) : R := a * (1 - t) + b * t.

(** [smoothstep(edge0, edge1, x)] by its defining code:
    [t = clamp((x - edge0) / (edge1 - edge0), 0, 1); t * t * (3 - 2 * t)].
    The shaders call it with [edge0 > edge1]; the formula is taken as it
    is evaluated. *)
Definition smoothstep (edge0 edge1 a : R) : R :=
  let t := clamp ((a - edge0) / (edge1 - edge0)) 0 1 in
  t * t * (3 - 2 * t).

(** [pow(x, y)] for [x >= 0] and [y > 0]: zero at zero.  (GLSL leaves
    [x < 0] undefined; the shaders pass [uAudio].) *)
Definition pow (a b : R) : R :=
  if Rlt_dec 0 a then Rpower a b else 0.

(** Componentwise vector arithmetic, scalars broadcast. *)
Definition vfloor (p : vec2) : vec2 := mkvec2 (floor (vx p)) (floor (vy p)).
Definition vfract (p : vec2) : vec2 := mkvec2 (fract (vx p)) (fract (vy p)).
Definition vadd (p q : vec2) : vec2 := mkvec2 (vx p + vx q) (vy p + vy q).
Definition vsub (p q : vec2) : vec2 := mkvec2 (vx p - vx q) (vy p - vy q).
Definition vmul (p q : vec2) : vec2 := mkvec2 (vx p * vx q) (vy p * vy q).
Definition vscale (p : vec2) (k : R) : vec2 := mkvec2 (vx p * k) (vy p * k).
Definition vadds (p : vec2) (k : R) : vec2 := mkvec2 (vx p + k) (vy p + k).
Definition vsubs (p : vec2) (k : R) : vec2 := mkvec2 (vx p - k) (vy p - k).
(** [k - p] with the scalar on the left. *)
Definition ssubv (k : R) (p : vec2) : vec2 := mkvec2 (k - vx p) (k - vy p).

Definition dot (p q : vec2) : R := vx p * vx q + vy p * vy q.
Definition length (p : vec2) : R := sqrt (dot p p).

Definition mix3 (a b : vec3) (t : R) : vec3 :=
  mkvec3 (mix (cx a) (cx b) t) (mix (cy a) (cy b) t) (mix (cz a) (cz b) t).
Definition add3 (a b : vec3) : vec3 :=
  mkvec3 (cx a + cx b) (cy a + cy b) (cz a + cz b).
Definition adds3 (a : vec3) (k : R) : vec3 :=
  mkvec3 (cx a + k) (cy a + k) (cz a + k).
Definition scale3 (a : vec3) (k : R) : vec3 :=
  mkvec3 (cx a * k) (cy a * k) (cz a * k).

Definition dot4 (a b : vec4) : R :=
  wx a * wx b + wy a * wy b + wz a * wz b + ww a * ww b.
Definition col4 (m : mat4) (sel : vec4 -> R) : vec4 :=
  mkvec4 (sel (row0 m)) (sel (row1 m)) (sel (row2 m)) (sel (row3 m)).
Definition mul_mv (m : mat4) (v : vec4) : vec4 :=
  mkvec4 (dot4 (row0 m) v) (dot4 (row1 m) v) (dot4 (row2 m) v) (dot4 (row3 m) v).
Definition row_mm (r : vec4) (m : mat4) : vec4 :=
  mkvec4 (dot4 r (col4 m wx)) (dot4 r (col4 m wy))
         (dot4 r (col4 m wz)) (dot4 r (col4 m ww)).
Definition mul_mm (a b : mat4) : mat4 :=
  mkmat4 (row_mm (row0 a) b) (row_mm (row1 a) b)
         (row_mm (row2 a) b) (row_mm (row3 a) b).

(** A channel or a coordinate in the closed unit interval. *)
Definition unit (a : R) : Prop := 0 <= a <= 1.

End Glsl.

(** ** The lattice hash and the value noise (both variants, same text) *)

Module Noise.

Import Glsl.
Local Open Scope R_scope.

(** [fract(sin(dot(p, vec2(127.1,311.7))) * 43758.5453123)]. *)
Definition hash (p : vec2) : R :=
  fract (sin (dot p (mkvec2 127.1 311.7)) * 43758.5453123).

(** The smoothstep weights [u = f*f*(3.0-2.0*f)]. *)
Definition weights (f : vec2) : vec2 :=
  vmul (vmul f f) (ssubv 3 (vscale f 2)).

Definition noise (p : vec2) : R :=
  let i := vfloor p in
  let f := vfract p in
  let a := hash i in
  let b := hash (vadd i (mkvec2 1 0)) in
  let c := hash (vadd i (mkvec2 0 1)) in
  let d := hash (vadd i (mkvec2 1 1)) in
  let u := weights f in
  mix a b (vx u) + (c - a) * vy u * (1 - vx u) + (d - b) * vx u * vy u.

(** The hash at the four corners of the lattice cell of [p]: the
    [a], [b], [c], [d] of [noise]. *)
Definition corner_a (p : vec2) : R := hash (vfloor p).
Definition corner_b (p : vec2) : R := hash (vadd (vfloor p) (mkvec2 1 0)).
Definition corner_c (p : vec2) : R := hash (vadd (vfloor p) (mkvec2 0 1)).
Definition corner_d (p : vec2) : R := hash (vadd (vfloor p) (mkvec2 1 1)).

End Noise.

(** ** The shaders of the audio-reactive variant (part_000) *)

Module Shader000.

Import Glsl Noise.
Local Open Scope R_scope.

(** The inputs of one vertex-shader invocation: the attributes [uv] and
    [position], and the uniforms. *)
Record VertexIn : Type := mkVertexIn {
  uv : vec2;
  position : vec3;
  uTime : R;
  uAudio : R;
  uMouse : vec2;
  projectionMatrix : mat4;
  modelViewMatrix : mat4
}.

Record VertexOut : Type := mkVertexOut {
  vUv : vec2;
  gl_Position : vec4
}.

(** The amplitude constants of the height. *)
Definition baseAmp : R := 0.2.
Definition ampGain : R := 0.9.
Definition rippleMax : R := 0.5 * (0.25 + 0.5).

(** Lines 22-33 of [main]: the displacement [h]. *)
Definition height (uv : vec2) (uTime : R) (uMouse : vec2) (uAudio : R) : R :=
  let t := uTime * 0.8 in
  let warp :=
    vscale (mkvec2 (noise (vadds (vscale uv 3) t))
                   (noise (vsubs (vscale uv 3) t))) 0.3 in
  let m := length (vsub uv (vadds (vscale uMouse 0.5) 0.5)) in
  let mouseRip := smoothstep 0.7 0 m * 0.5 in
  let amp := 0.2 + uAudio * 0.9 in
  noise (vadds (vadd (vscale uv 6) warp) t) * amp
  + mouseRip * (0.25 + uAudio * 0.5).

(** The displaced vertex: [p.z += h] and the horizontal wobble. *)
Definition displaced (e : VertexIn) : vec3 :=
  let p := position e in
  let t := uTime e * 0.8 in
  let h := height (uv e) (uTime e) (uMouse e) (uAudio e) in
  let p := mkvec3 (cx p) (cy p) (cz p + h) in
  mkvec3 (cx p + (noise (vadds (vscale (uv e) 4) t) - 0.5) * 0.06) (cy p) (cz p).

Definition main (e : VertexIn) : VertexOut :=
  let p := displaced e in
  mkVertexOut (uv e)
    (mul_mv (mul_mm (projectionMatrix e) (modelViewMatrix e))
            (mkvec4 (cx p) (cy p) (cz p) 1)).

(** The fragment shader: [gl_FragColor] from the varying and the
    uniforms.  There is no [clamp] in it. *)
Definition fragment (vUv : vec2) (uTime uAudio : R) : vec4 :=
  let t := uTime * 0.2 in
  let vign := smoothstep 1 0.2 (length (vsubs vUv 0.5)) in
  let deep := mkvec3 0.02 0.03 0.06 in
  let mid := mkvec3 0.18 0.15 0.4 in
  let bright := mkvec3 0.6 0.4 1 in
  let pulse := 0.2 + uAudio * 1.2 in
  let col := adds3 (mix3 deep mid (vy vUv)) (sin (t + vx vUv * 6) * 0.02 * pulse) in
  let col := add3 col (scale3 (scale3 bright (pow uAudio 1.5)) 0.4) in
  let col := scale3 col vign in
  mkvec4 (cx col) (cy col) (cz col) 1.

End Shader000.

(** ** GLSL types, as far as the helper of part_001's fragment shader
       needs them *)

Module Typing.

Local Open Scope nat_scope.

(** [float] and the vectors [vec2], [vec3], [vec4]. *)
Inductive ty : Type :=
| TFloat
| TVec (n : nat).

Inductive expr : Type :=
| Lit                                   (* a float literal *)
| Var (t : ty)                          (* a name of the declared type *)
| Swizzle (e : expr) (sel : list nat)   (* [e.yxxy] is [Swizzle e [1;0;0;1]] *)
| Add (a b : expr)
| Mul (a b : expr)
| Sin (e : expr).

Definition ty_eqb (a b : ty) : bool :=
  match a, b with
  | TFloat, TFloat => true
  | TVec n, TVec m => Nat.eqb n m
  | _, _ => false
  end.

(** [+] and [*] work component by component: the operands have one
    type, or one of them is a [float].  There is no implicit conversion
    between vectors of different sizes. *)
Definition componentwise (a b : ty) : option ty :=
  match a, b with
  | TFloat, t => Some t
  | t, TFloat => Some t
  | TVec n, TVec m => if Nat.eqb n m then Some (TVec n) else None
  end.

(** A swizzle selects one to four components that its vector has. *)
Definition swizzle (t : ty) (sel : list nat) : option ty :=
  match t with
  | TFloat => None
  | TVec n =>
      if forallb (fun k => Nat.ltb k n) sel
      then match length sel with
           | 1 => Some TFloat
           | 2 => Some (TVec 2)
           | 3 => Some (TVec 3)
           | 4 => Some (TVec 4)
           | _ => None
           end
      else None
  end.

Fixpoint typeof (e : expr) : option ty :=
  match e with
  | Lit => Some TFloat
  | Var t => Some t
  | Swizzle e sel =>
      match typeof e with
      | Some t => swizzle t sel
      | None => None
      end
  | Add a b | Mul a b =>
      match typeof a, typeof b with
      | Some ta, Some tb => componentwise ta tb
      | _, _ => None
      end
  | Sin e => typeof e
  end.

(** [return e;] in a function declared to return [t]. *)
Definition returns (t : ty) (e : expr) : bool :=
  match typeof e with
  | Some t' => ty_eqb t t'
  | None => false
  end.

End Typing.

(** ** The shaders of the landing-page variant (part_001) *)

Module Shader001.

Import Glsl Noise.
Local Open Scope R_scope.

(** Lines 39-49 of [main]: the displacement [h], without audio. *)
Definition height (uv : vec2) (uTime : R) (uMouse : vec2) : R :=
  let t := uTime * 0.3 in
  let warp :=
    mkvec2 (noise (vadds (vscale uv 3) t) * 0.5)
           (noise (vsubs (vscale uv 3) t) * 0.5) in
  let m := length (vsub uv (vadds (vscale uMouse 0.5) 0.5)) in
  let mouseRipple := smoothstep 0.6 0 m * 0.4 in
  noise (vadds (vadd (vscale uv 6) warp) t) * 0.4 + mouseRipple.

(** Lines 65-67 of the fragment shader, the body of
    [vec3 palette(float t, vec3 a, vec3 b)]:
    [return a + b * sin(6.28318 * (t + vUv.yxxy));] with [vUv] the
    [varying vec2] of line 61. *)
Definition palette_body : Typing.expr :=
  Typing.Add (Typing.Var (Typing.TVec 3%nat))
    (Typing.Mul (Typing.Var (Typing.TVec 3%nat))
       (Typing.Sin
          (Typing.Mul Typing.Lit
             (Typing.Add (Typing.Var Typing.TFloat)
                (Typing.Swizzle (Typing.Var (Typing.TVec 2%nat))
                   [1; 0; 0; 1]%nat))))).

(** A fragment shader is compiled as a whole: with a function that does
    not type-check there is no program and [main] (lines 69-84) never
    runs, called or not. *)
Definition fragment_compiles : bool :=
  Typing.returns (Typing.TVec 3%nat) palette_body.

End Shader001.

(** ** The host: animation frames and the mount element *)

Module Browser.

Import Js.

(** The list of animation frame callbacks of the window.  A callback is
    named by the number of the closure it belongs to; handles are
    positive and never reused. *)
Record Raf : Type := mkRaf { last : nat; pending : list (nat * nat) }.

Definition raf0 : Raf := mkRaf 0 [].

(** [requestAnimationFrame(cb)]: the new handle and the new list. *)
Definition request (cb : nat) (r : Raf) : Raf * nat :=
  let id := S (last r) in
  (mkRaf id (pending r ++ [(id, cb)]), id).

(** [cancelAnimationFrame(id)]: an unknown handle is ignored. *)
Definition cancel (id : nat) (r : Raf) : Raf :=
  mkRaf (last r) (filter (fun hc => negb (Nat.eqb (fst hc) id)) (pending r)).

Definition is_pending (id : nat) (r : Raf) : bool :=
  existsb (fun hc => Nat.eqb (fst hc) id) (pending r).

(** [container.removeChild(node)]: throws [NotFoundError] when [node] is
    not a child. *)
Definition removeChild (node : nat) (children : list nat)
  : completion (list nat) :=
  if existsb (Nat.eqb node) children
  then Normal (filter (fun c => negb (Nat.eqb c node)) children)
  else Throw NotFoundError.

(** What the host supplies when it runs a callback: the time in
    milliseconds and the analyser's current byte frequency data. *)
Record HostInput : Type := mkHostInput { now : Q; freq : list Z }.

(** Replace the element at an index, if there is one. *)
Fixpoint modify {A : Type} (k : nat) (f : A -> A) (l : list A) : list A :=
  match l, k with
  | [], _ => []
  | a :: l', O => f a :: l'
  | a :: l', S k' => a :: modify k' f l'
  end.

End Browser.

(** ** The audio-reactive component (part_000, [App]) *)

Module App000.

Import Js Three Browser.
Local Open Scope Q_scope.

Record Uniforms : Type := mkUniforms {
  uTime : Q;
  uAudio : num;
  uMouse : Vector2
}.

(** [THREE.Clock] with [autoStart]: the first reading starts it. *)
Record Clock : Type := mkClock { running : bool; oldTime : Q; elapsedTime : Q }.

Definition getElapsedTime (now : Q) (c : Clock) : Clock * Q :=
  if running c
  then let e := elapsedTime c + (now - oldTime c) / 1000 in
       (mkClock true now e, e)
  else (mkClock true now 0, 0).

(** What one run of the effect creates and its closures share. *)
Record Session : Type := mkSession {
  rafId : option nat;
  clock : Clock;
  uniforms : Uniforms;
  cube_scale : num;
  cube_rx : Q;
  cube_ry : Q;
  frames : nat;
  observing : bool;
  listening : bool;
  disposed : bool
}.

Record AudioEl : Type := mkAudioEl { el_volume : Q; el_paused : bool }.

(** The component: React state, refs, the host's frame list, the
    children of the mount element, every session created so far (a
    session's number is its index), the session whose cleanup React
    holds, and a count of the ticks executed. *)
Record World : Type := mkWorld {
  volume : Q;
  isPlaying : bool;
  mouseRef : Vector2;
  uniformsRef : option nat;
  analyserRef : bool;
  dataArrayRef : option Audio.Uint8Array;
  audioElRef : option AudioEl;
  raf : Raf;
  children : list nat;
  sessions : list Session;
  effect : option nat;
  ticks : nat
}.

Definition set_rafId (v : option nat) (s : Session) : Session :=
  mkSession v (clock s) (uniforms s) (cube_scale s) (cube_rx s) (cube_ry s)
            (frames s) (observing s) (listening s) (disposed s).
Definition set_clock (v : Clock) (s : Session) : Session :=
  mkSession (rafId s) v (uniforms s) (cube_scale s) (cube_rx s) (cube_ry s)
            (frames s) (observing s) (listening s) (disposed s).
Definition set_uniforms (v : Uniforms) (s : Session) : Session :=
  mkSession (rafId s) (clock s) v (cube_scale s) (cube_rx s) (cube_ry s)
            (frames s) (observing s) (listening s) (disposed s).
Definition set_cube_scale (v : num) (s : Session) : Session :=
  mkSession (rafId s) (clock s) (uniforms s) v (cube_rx s) (cube_ry s)
            (frames s) (observing s) (listening s) (disposed s).
(** [cube.rotation.x += 0.01; cube.rotation.y += 0.02; renderer.render]. *)
Definition rotate_and_render (s : Session) : Session :=
  mkSession (rafId s) (clock s) (uniforms s) (cube_scale s)
            (cube_rx s + (1 # 100)) (cube_ry s + (2 # 100))
            (S (frames s)) (observing s) (listening s) (disposed s).
(** [ro.disconnect(); removeEventListener("pointermove", onPointer)]. *)
Definition unsubscribe (s : Session) : Session :=
  mkSession (rafId s) (clock s) (uniforms s) (cube_scale s) (cube_rx s)
            (cube_ry s) (frames s) false false (disposed s).
(** [renderer.dispose(); geo.dispose(); mat.dispose()]. *)
Definition dispose (s : Session) : Session :=
  mkSession (rafId s) (clock s) (uniforms s) (cube_scale s) (cube_rx s)
            (cube_ry s) (frames s) (observing s) (listening s) true.

Definition set_volume (v : Q) (w : World) : World :=
  mkWorld v (isPlaying w) (mouseRef w) (uniformsRef w) (analyserRef w)
          (dataArrayRef w) (audioElRef w) (raf w) (children w) (sessions w)
          (effect w) (ticks w).
Definition set_isPlaying (v : bool) (w : World) : World :=
  mkWorld (volume w) v (mouseRef w) (uniformsRef w) (analyserRef w)
          (dataArrayRef w) (audioElRef w) (raf w) (children w) (sessions w)
          (effect w) (ticks w).
Definition set_mouseRef (v : Vector2) (w : World) : World :=
  mkWorld (volume w) (isPlaying w) v (uniformsRef w) (analyserRef w)
          (dataArrayRef w) (audioElRef w) (raf w) (children w) (sessions w)
          (effect w) (ticks w).
Definition set_uniformsRef (v : option nat) (w : World) : World :=
  mkWorld (volume w) (isPlaying w) (mouseRef w) v (analyserRef w)
          (dataArrayRef w) (audioElRef w) (raf w) (children w) (sessions w)
          (effect w) (ticks w).
Definition set_analyser (a : bool) (d : option Audio.Uint8Array) (w : World)
  : World :=
  mkWorld (volume w) (isPlaying w) (mouseRef w) (uniformsRef w) a d
          (audioElRef w) (raf w) (children w) (sessions w) (effect w)
          (ticks w).
Definition set_audioElRef (v : option AudioEl) (w : World) : World :=
  mkWorld (volume w) (isPlaying w) (mouseRef w) (uniformsRef w)
          (analyserRef w) (dataArrayRef w) v (raf w) (children w)
          (sessions w) (effect w) (ticks w).
Definition set_raf (v : Raf) (w : World) : World :=
  mkWorld (volume w) (isPlaying w) (mouseRef w) (uniformsRef w)
          (analyserRef w) (dataArrayRef w) (audioElRef w) v (children w)
          (sessions w) (effect w) (ticks w).
Definition set_children (v : list nat) (w : World) : World :=
  mkWorld (volume w) (isPlaying w) (mouseRef w) (uniformsRef w)
          (analyserRef w) (dataArrayRef w) (audioElRef w) (raf w) v
          (sessions w) (effect w) (ticks w).
Definition set_sessions (v : list Session) (w : World) : World :=
  mkWorld (volume w) (isPlaying w) (mouseRef w) (uniformsRef w)
          (analyserRef w) (dataArrayRef w) (audioElRef w) (raf w)
          (children w) v (effect w) (ticks w).
Definition set_effect (v : option nat) (w : World) : World :=
  mkWorld (volume w) (isPlaying w) (mouseRef w) (uniformsRef w)
          (analyserRef w) (dataArrayRef w) (audioElRef w) (raf w)
          (children w) (sessions w) v (ticks w).
Definition count_tick (w : World) : World :=
  mkWorld (volume w) (isPlaying w) (mouseRef w) (uniformsRef w)
          (analyserRef w) (dataArrayRef w) (audioElRef w) (raf w)
          (children w) (sessions w) (effect w) (S (ticks w)).

Definition modify_session (k : nat) (f : Session -> Session) (w : World)
  : World :=
  set_sessions (modify k f (sessions w)) w.

(** [analyser.getByteFrequencyData(array)]: the current data is copied
    into the array, as much of it as fits. *)
Definition getByteFrequencyData (array data : Audio.Uint8Array)
  : Audio.Uint8Array :=
  firstn (length array) data ++ skipn (length data) array.

(** [analyser.frequencyBinCount] for [fftSize = 512]. *)
Definition frequencyBinCount : nat := 256.

(** Lines 180-193: the audio block of a tick of session [i], writing
    through [uniformsRef.current] (session [j]). *)
Definition audio_block (i j : nat) (h : HostInput) (w : World) : World :=
  match analyserRef w, dataArrayRef w with
  | true, Some array =>
      let array := getByteFrequencyData array (freq h) in
      let avg := Audio.average array in
      let w := set_analyser true (Some array) w in
      let w :=
        modify_session j
          (fun s => set_uniforms
                      (mkUniforms (uTime (uniforms s)) avg (uMouse (uniforms s)))
                      s) w in
      modify_session i
        (set_cube_scale (add (Num 1) (mul avg (Num (14 # 10))))) w
  | _, _ => w
  end.

(** Lines 175-194: the [if (uniformsRef.current)] block. *)
Definition uniforms_block (i : nat) (t : Q) (h : HostInput) (w : World)
  : World :=
  match uniformsRef w with
  | Some j =>
      let w :=
        modify_session j
          (fun s => set_uniforms
                      (mkUniforms t (uAudio (uniforms s))
                         (lerp (uMouse (uniforms s)) (mouseRef w) (8 # 100)))
                      s) w in
      audio_block i j h w
  | None => w
  end.

(** Lines 172-199: one tick of the [animate] closure of session [i]. *)
Definition animate (i : nat) (h : HostInput) (w : World) : World :=
  match nth_error (sessions w) i with
  | None => w
  | Some s =>
      let (r, id) := request i (raf w) in
      let (c, t) := getElapsedTime (now h) (clock s) in
      let w := set_raf r w in
      let w := modify_session i (fun s => set_clock c (set_rafId (Some id) s)) w in
      let w := uniforms_block i t h w in
      let w := modify_session i rotate_and_render w in
      count_tick w
  end.

(** The host runs the animation frame callbacks: the handles pending
    when the frame starts, each removed and invoked if still pending. *)
Fixpoint run_callbacks (hs : list (nat * nat)) (h : HostInput) (w : World)
  : World :=
  match hs with
  | [] => w
  | (id, i) :: hs' =>
      if is_pending id (raf w)
      then run_callbacks hs' h (animate i h (set_raf (cancel id (raf w)) w))
      else run_callbacks hs' h w
  end.

Definition frame (h : HostInput) (w : World) : World :=
  run_callbacks (pending (raf w)) h w.

(** A session as the effect creates it, before the first [animate()]. *)
Definition new_session : Session :=
  mkSession None (mkClock false 0 0)
            (mkUniforms 0 (Num 0) (mkVector2 0 0))
            (Num 1) 0 0 0 true true false.

(** Lines 78-200: the body of the effect.  React has attached the mount
    element before it runs, so the guard on [mountRef.current] passes.
    [createAnalyser] is declared there and never called. *)
Definition run_effect (h : HostInput) (w : World) : World :=
  let i := length (sessions w) in
  let w := set_sessions (sessions w ++ [new_session]) w in
  let w := set_children (children w ++ [i]) w in
  let w := set_uniformsRef (Some i) w in
  let w := set_effect (Some i) w in
  animate i h w.

(** Lines 203-211: the cleanup closure of session [i]. *)
Definition cleanup (i : nat) (w : World) : World * completion unit :=
  match nth_error (sessions w) i with
  | None => (w, Normal tt)
  | Some s =>
      let w := modify_session i unsubscribe w in
      let w :=
        match rafId s with
        | Some id => set_raf (cancel id (raf w)) w
        | None => w   (* [cancelAnimationFrame(null)]: no such handle *)
        end in
      let w := modify_session i dispose w in
      match removeChild i (children w) with
      | Normal ch => (set_children ch w, Normal tt)
      | Throw _ => (w, Normal tt)   (* try { ... } catch (e) {} *)
      end
  end.

(** The component before it is mounted. *)
Definition initial : World :=
  mkWorld (7 # 10) false (mkVector2 0 0) None false None None raf0 [] [] None 0.

Definition mount (h : HostInput) (w : World) : World := run_effect h w.

(** React runs the cleanup it holds, once. *)
Definition unmount (w : World) : World :=
  match effect w with
  | Some i => set_effect None (fst (cleanup i w))
  | None => w
  end.

(** A [pointermove] on the canvas of session [i]. *)
Definition pointermove (i : nat) (rect : Pointer.DOMRect)
  (e : Pointer.PointerEvent) (w : World) : World :=
  match nth_error (sessions w) i with
  | Some s =>
      if listening s
      then set_mouseRef (Pointer.onPointer rect e (mouseRef w)) w
      else w
  | None => w
  end.

(** Lines 215-244, [handlePlay], when nothing else runs at its awaits;
    [ok] tells whether [play()] resolved.  [handlePlay_begin] and
    [handlePlay_end] below are its two halves. *)
Definition handlePlay (ok : bool) (w : World) : World :=
  let el :=
    match audioElRef w with
    | Some el => el
    | None => mkAudioEl 1 true
    end in
  let el := mkAudioEl (volume w) (el_paused el) in
  if ok
  then
    let w := set_audioElRef (Some (mkAudioEl (el_volume el) false)) w in
    let w :=
      if analyserRef w then w
      else set_analyser true (Some (repeat 0%Z frequencyBinCount)) w in
    set_isPlaying true w
  else set_audioElRef (Some el) w.

(** [handlePlay] is an [async] function: frames and other handlers run
    at its awaits.  Lines 217-226, up to [await audioElRef.current.play()]:
    [vol] is the [volume] of the render whose handler was invoked, which
    a [handleVolume] since then has not changed; [started] tells whether
    [play()] set the element playing. *)
Definition handlePlay_begin (vol : Q) (started : bool) (w : World) : World :=
  let el :=
    match audioElRef w with
    | Some el => el
    | None => mkAudioEl 1 true
    end in
  set_audioElRef
    (Some (mkAudioEl vol (if started then false else el_paused el))) w.

(** Lines 227-243, once the promise of [play()] has settled; [ok] tells
    whether it resolved and the audio graph could be built.  A throw
    inside the [try], as [createMediaElementSource] of no element, ends
    in the [catch] before [setIsPlaying]. *)
Definition handlePlay_end (ok : bool) (w : World) : World :=
  if ok
  then
    if analyserRef w then set_isPlaying true w
    else
      match audioElRef w with
      | Some _ =>
          set_isPlaying true
            (set_analyser true (Some (repeat 0%Z frequencyBinCount)) w)
      | None => w
      end
  else w.

(** The track reaches its end.  The element of line 222 does not loop
    ([loop] is set in [createAnalyser] only, which is never called), so
    it pauses itself; the component listens to no event of the element
    and [isPlaying] stays as it is. *)
Definition ended (w : World) : World :=
  match audioElRef w with
  | Some el => set_audioElRef (Some (mkAudioEl (el_volume el) true)) w
  | None => w
  end.

(** Lines 246-251, [handlePause]. *)
Definition handlePause (w : World) : World :=
  let w :=
    match audioElRef w with
    | Some el => set_audioElRef (Some (mkAudioEl (el_volume el) true)) w
    | None => w
    end in
  set_isPlaying false w.

(** Lines 253-257, [handleVolume], followed by what React does with
    [setVolume(vol)]: nothing when the state is unchanged; otherwise a
    render whose commit, [volume] being the one dependency of the effect
    (line 212), runs the cleanup of the effect and the effect again. *)
Definition handleVolume (v : Q) (h : HostInput) (w : World) : World :=
  let vol := clamp01 v in
  let changed := negb (Qeq_bool vol (volume w)) in
  let w := set_volume vol w in
  let w :=
    match audioElRef w with
    | Some el => set_audioElRef (Some (mkAudioEl vol (el_paused el))) w
    | None => w
    end in
  if changed
  then
    match effect w with
    | Some i => run_effect h (fst (cleanup i w))
    | None => w
    end
  else w.

(** What can happen to the mounted component.  [EPlay] is a run of
    [handlePlay] that nothing interrupts; [EPlayBegin] and [EPlayEnd]
    are its halves, between which anything else may happen. *)
Inductive Event : Type :=
| EFrame (h : HostInput)
| EPointer (i : nat) (rect : Pointer.DOMRect) (e : Pointer.PointerEvent)
| EPlay (ok : bool)
| EPlayBegin (vol : Q) (started : bool)
| EPlayEnd (ok : bool)
| EEnded
| EPause
| EVolume (v : Q) (h : HostInput).

Definition step (w : World) (ev : Event) : World :=
  match ev with
  | EFrame h => frame h w
  | EPointer i rect e => pointermove i rect e w
  | EPlay ok => handlePlay ok w
  | EPlayBegin vol started => handlePlay_begin vol started w
  | EPlayEnd ok => handlePlay_end ok w
  | EEnded => ended w
  | EPause => handlePause w
  | EVolume v h => handleVolume v h w
  end.

Definition run (evs : list Event) (w : World) : World :=
  fold_left step evs w.

(** The uniforms that [uniformsRef.current] points to. *)
Definition current_uniforms (w : World) : option Uniforms :=
  match uniformsRef w with
  | Some j => option_map uniforms (nth_error (sessions w) j)
  | None => None
  end.

(** Between ticks, while the effect is mounted, exactly one callback
    waits: the one whose handle [rafId] of the mounted session holds;
    once the cleanup has run none waits. *)
Definition loop_invariant (w : World) : Prop :=
  match effect w with
  | Some i =>
      exists id : nat,
        nth_error (map rafId (sessions w)) i = Some (Some id) /\
        pending (raf w) = [(id, i)]
  | None => pending (raf w) = []
  end.

(** The array the analyser fills has [frequencyBinCount] entries. *)
Definition snapshot_ok (w : World) : Prop :=
  match dataArrayRef w with
  | Some a => length a = frequencyBinCount
  | None => True
  end.

(** After the cleanup nothing is mounted and no callback waits. *)
Definition quiet (w : World) : Prop :=
  effect w = None /\ pending (raf w) = [].

End App000.

(** ** The landing-page component (part_001, [App]) *)

Module App001.

Import Js Browser.
Local Open Scope Q_scope.

(** What the closures of the component throw. *)
Inductive thrown : Type :=
| InvalidHookCall     (* React: a hook called outside the render of a component *)
| ReferenceError.     (* a name that is declared nowhere *)

(** How a closure of the component ends: it completes (the effect by
    returning its cleanup closure, which React then holds), or it
    throws. *)
Inductive outcome : Type :=
| Completed
| Threw (e : thrown).

(** The canvas would be node 0 of the mount element and [animate]
    callback 0. *)
Record World : Type := mkWorld {
  raf : Raf;
  children : list nat;
  raf_var : nat;             (* [let raf = 0], never assigned again *)
  cube_rx : Q;
  cube_ry : Q;
  frames : nat;
  observing : bool;
  listening : bool;
  disposed : bool;
  cleanup_held : bool;       (* React holds a cleanup of the effect *)
  ticks : nat
}.

(** Lines 176-181: one tick.  The handle that [requestAnimationFrame]
    returns is dropped. *)
Definition animate (w : World) : World :=
  let (r, _) := request 0 (raf w) in
  mkWorld r (children w) (raf_var w)
          (cube_rx w + (1 # 100)) (cube_ry w + (1 # 100))
          (S (frames w)) (observing w) (listening w) (disposed w)
          (cleanup_held w) (S (ticks w)).

Definition set_raf (r : Raf) (w : World) : World :=
  mkWorld r (children w) (raf_var w) (cube_rx w) (cube_ry w)
          (frames w) (observing w) (listening w) (disposed w)
          (cleanup_held w) (ticks w).

(** The host runs the animation frame callbacks that wait. *)
Fixpoint run_callbacks (hs : list (nat * nat)) (w : World) : World :=
  match hs with
  | [] => w
  | (id, _) :: hs' =>
      if is_pending id (raf w)
      then run_callbacks hs' (animate (set_raf (cancel id (raf w)) w))
      else run_callbacks hs' w
  end.

Definition frame (w : World) : World := run_callbacks (pending (raf w)) w.

Fixpoint frames_n (n : nat) (w : World) : World :=
  match n with
  | O => w
  | S n' => frames_n n' (frame w)
  end.

(** The component as React has rendered it, before the effect runs: the
    mount element has no child and no callback waits. *)
Definition initial : World :=
  mkWorld raf0 [] 0 0 0 0 false false false false 0.

(** [useRef], as every hook of React: outside the render of a component
    it throws. *)
Definition useRef (rendering : bool) : option thrown :=
  if rendering then None else Some InvalidHookCall.

(** Lines 95-197, the effect, which React runs after the commit.  Its
    first two statements (lines 96 and 97) call [useRef]; the first
    statement after them that reads the page (line 103) reads
    [container], which the file declares nowhere.  So no run of the
    effect gets to [appendChild] (line 111), to the two calls
    [animate()] (lines 182 and 184) or to the [return] of the cleanup
    (line 187). *)
Definition run_effect (w : World) : World * outcome :=
  match useRef false with
  | Some e => (w, Threw e)
  | None =>
      match useRef false with
      | Some e => (w, Threw e)
      | None => (w, Threw ReferenceError)
      end
  end.

(** React keeps the cleanup of an effect that returned one. *)
Definition mount (w : World) : World :=
  match run_effect w with
  | (w', Completed) =>
      mkWorld (raf w') (children w') (raf_var w') (cube_rx w') (cube_ry w')
              (frames w') (observing w') (listening w') (disposed w')
              true (ticks w')
  | (w', Threw _) => w'
  end.

(** Lines 187-196: the cleanup closure.  It cancels the handle in
    [raf], releases the listener, the observer and the renderer, and
    ends on [container.removeChild] (line 195), where [container] is
    again the name that is declared nowhere. *)
Definition cleanup (w : World) : World * outcome :=
  (mkWorld (cancel (raf_var w) (raf w)) (children w) (raf_var w)
           (cube_rx w) (cube_ry w) (frames w)
           false false true (cleanup_held w) (ticks w),
   Threw ReferenceError).

(** The teardown: React runs the cleanup it holds, if it holds one. *)
Definition unmount (w : World) : World * outcome :=
  if cleanup_held w
  then
    cleanup (mkWorld (raf w) (children w) (raf_var w) (cube_rx w)
               (cube_ry w) (frames w) (observing w) (listening w)
               (disposed w) false (ticks w))
  else (w, Completed).

End App001.

(** ** The vertex shader of the landing-page variant (part_001) *)

Module Vertex001.

Import Glsl Noise.
Local Open Scope R_scope.

Record VertexIn : Type := mkVertexIn {
  uv : vec2;
  position : vec3;
  uTime : R;
  uMouse : vec2;
  projectionMatrix : mat4;
  modelViewMatrix : mat4
}.

Record VertexOut : Type := mkVertexOut {
  vUv : vec2;
  gl_Position : vec4
}.

(** Lines 36-54 of [main]: [pos.z += h] and the wobble of the grid on
    both axes of the plane. *)
Definition displaced (e : VertexIn) : vec3 :=
  let pos := position e in
  let t := uTime e * 0.3 in
  let h := Shader001.height (uv e) (uTime e) (uMouse e) in
  let pos := mkvec3 (cx pos) (cy pos) (cz pos + h) in
  let pos :=
    mkvec3 (cx pos + (noise (vadds (vscale (uv e) 4) t) - 0.5) * 0.08)
           (cy pos) (cz pos) in
  mkvec3 (cx pos)
         (cy pos + (noise (vsubs (vscale (uv e) 4) t) - 0.5) * 0.08)
         (cz pos).

Definition main (e : VertexIn) : VertexOut :=
  let pos := displaced e in
  mkVertexOut (uv e)
    (mul_mv (mul_mm (projectionMatrix e) (modelViewMatrix e))
            (mkvec4 (cx pos) (cy pos) (cz pos) 1)).

End Vertex001.

(** ** The states the audio-reactive component can reach *)

Module Reach.

Import Js Three Browser App000.
Local Open Scope Q_scope.

(** The analyser hands out bytes. *)
Definition host_ok (h : HostInput) : Prop := Audio.well_formed (freq h).

Definition event_ok (ev : Event) : Prop :=
  match ev with
  | EFrame h => host_ok h
  | EVolume _ h => host_ok h
  | _ => True
  end.

(** The scale of the cube, [1 + avg * 1.4] for an average in [0,1]. *)
Definition scale_ok (n : num) : Prop :=
  match n with
  | Num q => 1 <= q <= 24 # 10
  | _ => False
  end.

Definition levels_ok (s : Session) : Prop :=
  in_unit (uAudio (uniforms s)) /\ scale_ok (cube_scale s).

(** A session in use, and a session whose cleanup has run. *)
Definition live (s : Session) : Prop :=
  observing s = true /\ listening s = true /\ disposed s = false.

Definition released (s : Session) : Prop :=
  observing s = false /\ listening s = false /\ disposed s = true.

Definition snapshot_wf (w : World) : Prop :=
  match dataArrayRef w with
  | Some a => length a = frequencyBinCount /\ Audio.well_formed a
  | None => True
  end.

(** The controls: the volume is in range, the playing flag is on only
    once the analyser exists, and the analyser only together with the
    audio element and the array it fills. *)
Definition controls_ok (w : World) : Prop :=
  0 <= volume w <= 1 /\
  (isPlaying w = true -> analyserRef w = true) /\
  (analyserRef w = true ->
   (exists el, audioElRef w = Some el) /\
   (exists a, dataArrayRef w = Some a)).

(** The session whose cleanup React holds. *)
Definition mounted_session (w : World) : option Session :=
  match effect w with
  | Some i => nth_error (sessions w) i
  | None => None
  end.

(** What one tick of session [s] makes of it, given the handle the tick
    obtains, the raw pointer sample and the analyser refs: the
    assignments of [animate] in their order. *)
Definition tick_session (h : HostInput) (mouse : Vector2) (an : bool)
  (da : option Audio.Uint8Array) (id : nat) (s : Session) : Session :=
  let (c, t) := getElapsedTime (now h) (clock s) in
  let s := set_clock c (set_rafId (Some id) s) in
  let s :=
    set_uniforms
      (mkUniforms t (uAudio (uniforms s))
         (lerp (uMouse (uniforms s)) mouse (8 # 100))) s in
  let s :=
    match an, da with
    | true, Some array =>
        let avg := Audio.average (getByteFrequencyData array (freq h)) in
        set_cube_scale (add (Num 1) (mul avg (Num (14 # 10))))
          (set_uniforms
             (mkUniforms (uTime (uniforms s)) avg (uMouse (uniforms s))) s)
    | _, _ => s
    end in
  rotate_and_render s.

(** The sessions apart from the mounted one are released and the
    controls are in order. *)
Definition rest_ok (w : World) : Prop :=
  (forall k s, nth_error (sessions w) k = Some s ->
     effect w <> Some k -> released s) /\
  controls_ok w.

(** The mounted component between two events. *)
Definition sound (w : World) : Prop :=
  (exists i id s,
     effect w = Some i /\ uniformsRef w = Some i /\
     nth_error (sessions w) i = Some s /\
     rafId s = Some id /\ pending (raf w) = [(id, i)] /\
     children w = [i] /\ live s /\
     running (clock s) = true /\
     uTime (uniforms s) = elapsedTime (clock s)) /\
  rest_ok w.

(** Every session holds levels in range and the snapshot array is a
    full array of bytes. *)
Definition levels (w : World) : Prop :=
  (forall k s, nth_error (sessions w) k = Some s -> levels_ok s) /\
  snapshot_wf w.

(** The component as the effect has set it up for session [i], before
    the first [animate()] or between the cancellation of a handle and the
    tick: no callback waits. *)
Definition ready (i : nat) (w : World) : Prop :=
  uniformsRef w = Some i /\ effect w = Some i /\
  (exists s, nth_error (sessions w) i = Some s /\ live s) /\
  pending (raf w) = [] /\ children w = [i] /\ rest_ok w.

(** The component with no session in use: before the mount, and
    between the cleanup and the next run of the effect. *)
Definition idle (w : World) : Prop :=
  pending (raf w) = [] /\ children w = [] /\
  (forall k s, nth_error (sessions w) k = Some s -> released s) /\
  controls_ok w.

(** A pointer event that lies on the rectangle of its canvas. *)
Definition pointer_ok (ev : Event) : Prop :=
  match ev with
  | EPointer _ rect e =>
      0 < Pointer.width rect /\ 0 < Pointer.height rect /\
      Pointer.left rect <= Pointer.clientX e
        <= Pointer.left rect + Pointer.width rect /\
      Pointer.top rect <= Pointer.clientY e
        <= Pointer.top rect + Pointer.height rect
  | _ => True
  end.

(** The raw pointer sample and every pointer uniform lie in [-1,1]^2. *)
Definition pointers (w : World) : Prop :=
  in_ndc (mouseRef w) /\
  forall k s, nth_error (sessions w) k = Some s -> in_ndc (uMouse (uniforms s)).

(** The component after the mount (its first tick at [h0]) and the
    events [evs]. *)
Definition reached (h0 : HostInput) (evs : list Event) : World :=
  run evs (mount h0 initial).

(** The component after its cleanup. *)
Definition torn_down (w : World) : Prop :=
  effect w = None /\ pending (raf w) = [] /\ children w = [] /\
  forall k s, nth_error (sessions w) k = Some s -> released s.

End Reach.

(** * Properties *)

(** ** The audio feature extractor *)

Section AudioLemmas.

Import Js Audio.
Local Open Scope Q_scope.

Lemma cutoff_div (n : nat) :
  cutoff n = Z.max 4 (Z.of_nat n * 2 / 10).
Proof.
  unfold cutoff, Qfloor, Qmult, inject_Z; simpl.
  reflexivity.
Qed.

Lemma cutoff_ge_4 (n : nat) : (4 <= cutoff n)%Z.
Proof. unfold cutoff; lia. Qed.

Lemma cutoff_within (n : nat) :
  (4 <= n)%nat -> (Z.to_nat (cutoff n) <= n)%nat.
Proof.
  intros Hn; rewrite cutoff_div.
  assert (Z.of_nat n * 2 / 10 <= Z.of_nat n)%Z.
  { apply Z.div_le_upper_bound; lia. }
  lia.
Qed.

Lemma skipn_cons_nth {A : Type} (l : list A) (i : nat) (a : A) :
  nth_error l i = Some a -> skipn i l = a :: skipn (S i) l.
Proof.
  revert i; induction l as [|b l IH]; intros [|i] H; simpl in *;
    try discriminate.
  - now inversion H.
  - now apply IH.
Qed.

(** The loop adds up the entries it reads, as long as they exist. *)
Lemma sum_loop_in_range (n : nat) :
  forall (a : Uint8Array) (i : nat) (s : Q),
    (i + n <= length a)%nat ->
    exists s' : Q,
      sum_loop a i n (Num s) = Num s' /\
      s' == s + inject_Z (fold_right Z.add 0%Z (firstn n (skipn i a))).
Proof.
  induction n as [|n IH]; intros a i s Hlen; simpl.
  - exists s; split; [reflexivity|].
    unfold inject_Z; simpl; ring.
  - destruct (nth_error a i) as [v|] eqn:Hv.
    2:{ apply nth_error_None in Hv; lia. }
    unfold get; rewrite Hv; simpl.
    destruct (IH a (S i) (s + inject_Z v)) as [s' [Hs' Heq]]; [lia|].
    exists s'; split; [exact Hs'|].
    rewrite Heq, (skipn_cons_nth a i v Hv).
    cbn [firstn fold_right]; rewrite inject_Z_plus; ring.
Qed.

(** Once an entry is missing the sum is [NaN] and stays so. *)
Lemma sum_loop_nan (n : nat) (a : Uint8Array) (i : nat) :
  sum_loop a i n NaN = NaN.
Proof.
  revert i; induction n as [|n IH]; intros i; simpl; [reflexivity|].
  apply IH.
Qed.

Lemma sum_uint8_bounds (l : Uint8Array) :
  well_formed l ->
  (0 <= fold_right Z.add 0 l <= 255 * Z.of_nat (length l))%Z.
Proof.
  induction 1 as [|v l Hv _ IH]; simpl fold_right; simpl length.
  - lia.
  - unfold is_uint8 in Hv; lia.
Qed.

Lemma well_formed_firstn (n : nat) (l : Uint8Array) :
  well_formed l -> well_formed (firstn n l).
Proof.
  unfold well_formed; intros H; revert n.
  induction H as [|v l Hv _ IH]; intros [|n]; simpl; constructor; auto.
Qed.

(** Division by a positive integer, then by 255, of a finite sum. *)
Lemma div_cutoff_255 (s : Q) (c : Z) :
  (4 <= c)%Z ->
  div (div (Num s) (Num (inject_Z c))) (Num 255) = Num (s / inject_Z c / 255).
Proof.
  intros Hc; unfold div.
  destruct (Qeq_bool (inject_Z c) 0) eqn:E.
  - apply Qeq_bool_iff in E; unfold Qeq, inject_Z in E; simpl in E; lia.
  - reflexivity.
Qed.

(** For a snapshot of at least four entries the code computes the mean
    of the first [cutoff] entries over 255. *)
Lemma average_bass_mean (a : Uint8Array) :
  (4 <= length a)%nat ->
  exists q : Q, average a = Num q /\ q == bass_mean a.
Proof.
  intros Hlen; unfold average.
  destruct (sum_loop_in_range (Z.to_nat (cutoff (length a))) a 0 0)
    as [s [Hs Heq]].
  { pose proof (cutoff_within _ Hlen); lia. }
  rewrite Hs, div_cutoff_255 by apply cutoff_ge_4.
  eexists; split; [reflexivity|].
  unfold bass_mean; rewrite Heq; simpl skipn.
  now rewrite Qplus_0_l.
Qed.

Lemma bass_mean_unit (a : Uint8Array) :
  well_formed a -> (4 <= length a)%nat -> 0 <= bass_mean a <= 1.
Proof.
  intros Hwf Hlen; unfold bass_mean.
  set (c := cutoff (length a)).
  assert (Hc : (4 <= c)%Z) by apply cutoff_ge_4.
  pose proof (sum_uint8_bounds _ (well_formed_firstn (Z.to_nat c) a Hwf)) as Hb.
  rewrite length_firstn in Hb.
  pose proof (cutoff_within _ Hlen) as Hw; fold c in Hw.
  rewrite Nat.min_l in Hb by exact Hw.
  rewrite Z2Nat.id in Hb by lia.
  set (t := fold_right Z.add 0%Z (firstn (Z.to_nat c) a)) in *.
  assert (Hcq : 0 < inject_Z c) by (unfold Qlt, inject_Z; simpl; lia).
  assert (Ht0 : 0 <= inject_Z t) by (unfold Qle, inject_Z; simpl; lia).
  assert (Ht1 : inject_Z t <= 255 * inject_Z c).
  { change 255 with (inject_Z 255).
    rewrite <- inject_Z_mult, <- Zle_Qle; lia. }
  generalize dependent (inject_Z t); generalize dependent (inject_Z c).
  intros cq Hcq tq Ht0 Ht1; split.
  - apply Qle_shift_div_l; [reflexivity|].
    apply Qle_shift_div_l; [exact Hcq|]. lra.
  - apply Qle_shift_div_r; [reflexivity|].
    apply Qle_shift_div_r; [exact Hcq|]. lra.
Qed.

Lemma firstn_repeat {A : Type} (v : A) (n m : nat) :
  (n <= m)%nat -> firstn n (repeat v m) = repeat v n.
Proof.
  revert m; induction n as [|n IH]; intros [|m] H; simpl; try reflexivity;
    try lia.
  f_equal; apply IH; lia.
Qed.

Lemma sum_repeat (v : Z) (n : nat) :
  fold_right Z.add 0%Z (repeat v n) = (v * Z.of_nat n)%Z.
Proof.
  induction n as [|n IH]; [simpl; lia|].
  cbn [repeat fold_right]; rewrite IH; lia.
Qed.

Lemma bass_mean_repeat (v : Z) (n : nat) :
  (4 <= n)%nat -> bass_mean (repeat v n) == inject_Z v / 255.
Proof.
  intros Hn; unfold bass_mean; rewrite repeat_length.
  pose proof (cutoff_within _ Hn) as Hw.
  pose proof (cutoff_ge_4 n) as Hc.
  rewrite firstn_repeat by exact Hw.
  rewrite sum_repeat, Z2Nat.id by lia.
  rewrite inject_Z_mult.
  assert (~ inject_Z (cutoff n) == 0).
  { unfold Qeq, inject_Z; simpl; lia. }
  field; exact H.
Qed.

End AudioLemmas.

Section AudioExtractor.

Import Js Audio.
Local Open Scope Q_scope.

(** A snapshot shorter than the cutoff: the loop reads past the end,
    adds [undefined], and the average is [NaN]. *)
Lemma sum_loop_past_end (n : nat) :
  forall (a : Uint8Array) (i : nat) (s : num),
    (i <= length a < i + n)%nat -> sum_loop a i n s = NaN.
Proof.
  induction n as [|n IH]; intros a i s H; [lia|].
  simpl; unfold get.
  destruct (nth_error a i) as [v|] eqn:Hv.
  - apply IH.
    assert (i < length a)%nat by (apply nth_error_Some; congruence).
    lia.
  - simpl. replace (add s NaN) with NaN by (destruct s; reflexivity).
    apply sum_loop_nan.
Qed.

Lemma average_short_nan (a : Uint8Array) :
  (length a < 4)%nat -> average a = NaN.
Proof.
  intros H; unfold average.
  rewrite sum_loop_past_end; [reflexivity|].
  pose proof (cutoff_ge_4 (length a)); lia.
Qed.

(** C1 (as amended: snapshots of at least four magnitudes).  For every
    frequency snapshot of N >= 4 magnitudes each in [0,255], the update
    returns the arithmetic mean of the first
    [cutoff = max(4, floor(N * 0.2))] entries divided by 255; the result
    lies in [0,1]; an all-zero snapshot yields 0 and an all-255
    snapshot yields 1. *)
Theorem update_bass_mean (a : Uint8Array) :
  well_formed a -> (4 <= length a)%nat ->
  cutoff (length a) = Z.max 4 (Z.of_nat (length a) * 2 / 10) /\
  exists q : Q,
    update a = Normal (Num q) /\
    q == bass_mean a /\
    0 <= q <= 1 /\
    (a = repeat 0%Z (length a) -> q == 0) /\
    (a = repeat 255%Z (length a) -> q == 1).
Proof.
  intros Hwf Hlen; split; [apply cutoff_div|].
  destruct (average_bass_mean a Hlen) as [q [Hq Hm]].
  exists q; unfold update; rewrite Hq.
  split; [reflexivity|]. split; [exact Hm|].
  pose proof (bass_mean_unit a Hwf Hlen) as Hu.
  split; [rewrite Hm; exact Hu|].
  split; intros Hrep; rewrite Hm, Hrep, bass_mean_repeat by exact Hlen;
    reflexivity.
Qed.

(** The theorem of C1 at a snapshot of five full-scale bins. *)
Lemma update_bass_mean_witness :
  well_formed (repeat 255%Z 5) /\ (4 <= length (repeat 255%Z 5))%nat /\
  exists q : Q,
    update (repeat 255%Z 5) = Normal (Num q) /\ q == 1.
Proof.
  assert (Hwf : well_formed (repeat 255%Z 5)).
  { repeat constructor; unfold is_uint8; lia. }
  assert (Hlen : (4 <= length (repeat 255%Z 5))%nat) by (simpl; lia).
  split; [exact Hwf|]. split; [exact Hlen|].
  destruct (update_bass_mean (repeat 255%Z 5) Hwf Hlen)
    as [_ [q [Hq [_ [_ [_ H1]]]]]].
  exists q; split; [exact Hq|]. apply H1; reflexivity.
Defined.

(** C1 as stated fails below four magnitudes: a snapshot of two zero
    bins is within [0,255] and the update yields [NaN], neither 0 nor a
    value of [0,1]. *)
Lemma update_two_bins_nan :
  well_formed [0; 0]%Z /\
  update [0; 0]%Z = Normal NaN /\
  ~ in_unit (average [0; 0]%Z).
Proof.
  split; [repeat constructor; unfold is_uint8; lia|].
  split; [reflexivity|].
  simpl; tauto.
Qed.

(** C2 (as amended).  Applied to an empty snapshot, and to any snapshot
    of fewer than four entries, the update raises nothing: the cutoff is
    4, neither divisor is zero, and the value returned is [NaN]. *)
Theorem update_short_snapshot (a : Uint8Array) :
  (length a < 4)%nat ->
  cutoff (length a) = 4%Z /\
  ~ inject_Z (cutoff (length a)) == 0 /\
  ~ 255 == 0 /\
  update a = Normal NaN.
Proof.
  intros H.
  assert (Hc : cutoff (length a) = 4%Z).
  { rewrite cutoff_div.
    assert (Z.of_nat (length a) * 2 / 10 < 4)%Z.
    { apply Z.div_lt_upper_bound; lia. }
    lia. }
  split; [exact Hc|]. rewrite Hc.
  split; [discriminate|]. split; [discriminate|].
  unfold update; now rewrite average_short_nan.
Qed.

(** The theorem of C2 at the empty snapshot. *)
Lemma update_short_snapshot_witness :
  (length (@nil Z) < 4)%nat /\ update [] = Normal NaN.
Proof.
  assert (H : (length (@nil Z) < 4)%nat) by (simpl; lia).
  split; [exact H|].
  exact (proj2 (proj2 (proj2 (update_short_snapshot [] H)))).
Defined.

(** C2 as stated fails: on the empty snapshot the update does not fail
    with [InvalidInputError]; it completes and returns [NaN]. *)
Lemma update_empty_returns_nan :
  update [] = Normal NaN /\ update [] <> Throw InvalidInputError.
Proof. split; [reflexivity|discriminate]. Qed.

End AudioExtractor.

(** ** The pointer smoother *)

Section PointerSmoother.

Import Three Pointer.
Local Open Scope Q_scope.

Lemma Qpower_succ_nat (a : Q) (k : nat) :
  a ^ Z.of_nat (S k) == a * a ^ Z.of_nat k.
Proof.
  rewrite Nat2Z.inj_succ, <- Z.add_1_l.
  rewrite Qpower_plus' by lia.
  now rewrite Qpower_1_r.
Qed.

Lemma Qpower_unit (a : Q) (k : nat) :
  0 <= a <= 1 -> 0 <= a ^ Z.of_nat k <= 1.
Proof.
  intros Ha; induction k as [|k IH].
  - simpl; lra.
  - rewrite Qpower_succ_nat. nra.
Qed.

(** A step keeps the target. *)
Lemma steps_target (r : Q) (k : nat) :
  forall s, target (steps r k s) = target s.
Proof.
  induction k as [|k IH]; intros s; simpl; [reflexivity|].
  now rewrite IH.
Qed.

(** The remaining offset after [k] steps, on each axis. *)
Lemma steps_offset (r : Q) (k : nat) :
  forall p c0 : Vector2,
    x p - x (current (steps r k (mkSmoother c0 p)))
      == (x p - x c0) * (1 - r) ^ Z.of_nat k /\
    y p - y (current (steps r k (mkSmoother c0 p)))
      == (y p - y c0) * (1 - r) ^ Z.of_nat k.
Proof.
  induction k as [|k IH]; intros p c0.
  - simpl; split; ring.
  - cbn [steps]. unfold step at 1; cbn [current target].
    destruct (IH p (lerp c0 p r)) as [Hx Hy].
    rewrite Hx, Hy, Qpower_succ_nat; unfold lerp; cbn [x y].
    split; ring.
Qed.

Lemma offset_between (p c0 c t : Q) :
  0 <= t <= 1 -> p - c == (p - c0) * t -> between c0 c p.
Proof.
  intros Ht H.
  assert (Hc : c == p - (p - c0) * t) by lra.
  unfold between; split; intros Hle; rewrite Hc; split; nra.
Qed.

Lemma dist2_nonneg (a b : Vector2) : 0 <= dist2 a b.
Proof.
  unfold dist2.
  pose proof (Qsqr_nonneg (x a - x b)) as H1.
  pose proof (Qsqr_nonneg (y a - y b)) as H2.
  simpl in H1, H2. lra.
Qed.

(** Scaling the squared distance by [t * t] scales the distance by [t]. *)
Lemma dist_scaled (a b c d : Vector2) (t : Q) :
  0 <= t -> dist2 a b == dist2 c d * (t * t) ->
  dist a b = (dist c d * Q2R t)%R.
Proof.
  intros Ht H; unfold dist.
  rewrite (Qeq_eqR _ _ H), !Q2R_mult.
  assert (H0 : (0 <= Q2R (dist2 c d))%R).
  { replace 0%R with (Q2R 0) by (unfold Q2R; simpl; lra).
    apply Qle_Rle, dist2_nonneg. }
  assert (Ht' : (0 <= Q2R t)%R).
  { replace 0%R with (Q2R 0) by (unfold Q2R; simpl; lra).
    apply Qle_Rle, Ht. }
  rewrite sqrt_mult by (try exact H0; apply Rmult_le_pos; exact Ht').
  now rewrite sqrt_square by exact Ht'.
Qed.

(** C3.  With a fixed rate [r] in (0,1] each step sets
    [current = lerp(current, target, r)]; for a constant target [p] and
    any start [c0], after [k] steps the offset [p - current] is
    [(p - c0) * (1-r)^k] on each axis, so the distance, on each axis
    and Euclidean, is the initial distance times [(1-r)^k], and
    [current] lies between [c0] and [p] on each axis: it does not
    overshoot.  The code's rates 0.08 and 0.2 are such rates. *)
Theorem smoother_decay (r : Q) (p c0 : Vector2) (k : nat) :
  0 < r <= 1 ->
  let s := steps r k (mkSmoother c0 p) in
  step r (mkSmoother c0 p) = mkSmoother (lerp c0 p r) p /\
  target s = p /\
  Qabs (x p - x (current s)) == Qabs (x p - x c0) * (1 - r) ^ Z.of_nat k /\
  Qabs (y p - y (current s)) == Qabs (y p - y c0) * (1 - r) ^ Z.of_nat k /\
  dist2 p (current s)
    == dist2 p c0 * ((1 - r) ^ Z.of_nat k * (1 - r) ^ Z.of_nat k) /\
  dist p (current s) = (dist p c0 * Q2R ((1 - r) ^ Z.of_nat k))%R /\
  between (x c0) (x (current s)) (x p) /\
  between (y c0) (y (current s)) (y p) /\
  (0 < rate_000 <= 1 /\ 0 < rate_001 <= 1).
Proof.
  intros Hr s.
  assert (Ht : 0 <= (1 - r) ^ Z.of_nat k <= 1) by (apply Qpower_unit; lra).
  destruct (steps_offset r k p c0) as [Hx Hy]; fold s in Hx, Hy.
  split; [reflexivity|].
  split; [unfold s; now rewrite steps_target|].
  split; [rewrite Hx, Qabs_Qmult, (Qabs_pos ((1 - r) ^ Z.of_nat k)) by tauto;
          reflexivity|].
  split; [rewrite Hy, Qabs_Qmult, (Qabs_pos ((1 - r) ^ Z.of_nat k)) by tauto;
          reflexivity|].
  assert (Hd : dist2 p (current s)
               == dist2 p c0 * ((1 - r) ^ Z.of_nat k * (1 - r) ^ Z.of_nat k)).
  { unfold dist2; rewrite Hx, Hy; ring. }
  split; [exact Hd|].
  split; [apply dist_scaled; [tauto | exact Hd]|].
  split; [exact (offset_between _ _ _ _ Ht Hx)|].
  split; [exact (offset_between _ _ _ _ Ht Hy)|].
  unfold rate_000, rate_001; split; split; reflexivity || discriminate.
Qed.

(** The theorem of C3 at the rate of part_000, three steps from the
    origin towards (1/2, -1/2). *)
Lemma smoother_decay_witness :
  0 < rate_000 <= 1 /\
  target (steps rate_000 3 (mkSmoother (mkVector2 0 0) (mkVector2 (1#2) (-1#2))))
    = mkVector2 (1#2) (-1#2).
Proof.
  assert (H : 0 < rate_000 <= 1) by (unfold rate_000; split; reflexivity || discriminate).
  split; [exact H|].
  exact (proj1 (proj2 (smoother_decay rate_000 (mkVector2 (1#2) (-1#2))
                         (mkVector2 0 0) 3 H))).
Defined.

(** C7 as stated fails: a pointer event to the right of the canvas
    stores a target outside [-1,1]^2; nothing clamps it. *)
Lemma onPointer_outside_canvas :
  let rect := mkRect 0 0 100 100 in
  let e := mkEvent 300 50 in
  veq (onPointer rect e (mkVector2 0 0)) (mkVector2 5 0) /\
  ~ in_ndc (onPointer rect e (mkVector2 0 0)).
Proof.
  cbv zeta; split.
  - split; reflexivity.
  - intros [[_ H] _]; revert H; vm_compute; intros H; apply H; reflexivity.
Qed.

(** C7 (as amended).  For a canvas of positive size, every pointer
    event sets the target to [(2x - 1, -(2y - 1))], where [(x, y)] is
    the position of the event relative to the canvas rectangle, without
    clamping; the stored target lies in [-1,1]^2 exactly when the event
    lies on the rectangle. *)
Theorem onPointer_ndc (rect : DOMRect) (e : PointerEvent) (m : Vector2) :
  0 < width rect -> 0 < height rect ->
  x (onPointer rect e m) == 2 * ((clientX e - left rect) / width rect) - 1 /\
  y (onPointer rect e m) == - (2 * ((clientY e - top rect) / height rect) - 1) /\
  (in_ndc (onPointer rect e m) <->
     left rect <= clientX e <= left rect + width rect /\
     top rect <= clientY e <= top rect + height rect).
Proof.
  intros Hw Hh; unfold onPointer, set, in_ndc; cbn [x y].
  split; [ring|]. split; [ring|].
  set (dx := clientX e - left rect).
  set (dy := clientY e - top rect).
  assert (Hx : dx / width rect * width rect == dx) by (field; lra).
  assert (Hy : dy / height rect * height rect == dy) by (field; lra).
  set (qx := dx / width rect) in *.
  set (qy := dy / height rect) in *.
  assert (Ex : clientX e == left rect + dx) by (unfold dx; ring).
  assert (Ey : clientY e == top rect + dy) by (unfold dy; ring).
  split.
  - intros [[H1 H2] [H3 H4]]. rewrite Ex, Ey. repeat split; nra.
  - intros [[H1 H2] [H3 H4]]. rewrite Ex in H1, H2. rewrite Ey in H3, H4.
    repeat split; nra.
Qed.

(** The theorem of C7 at an event in the middle of a 100 x 100 canvas. *)
Lemma onPointer_ndc_witness :
  0 < width (mkRect 0 0 100 100) /\ 0 < height (mkRect 0 0 100 100) /\
  in_ndc (onPointer (mkRect 0 0 100 100) (mkEvent 50 50) (mkVector2 0 0)).
Proof.
  assert (Hw : 0 < width (mkRect 0 0 100 100)) by reflexivity.
  assert (Hh : 0 < height (mkRect 0 0 100 100)) by reflexivity.
  split; [exact Hw|]. split; [exact Hh|].
  apply (proj2 (proj2 (onPointer_ndc (mkRect 0 0 100 100) (mkEvent 50 50)
                         (mkVector2 0 0) Hw Hh))).
  cbn; repeat split; discriminate.
Defined.

End PointerSmoother.

(** ** The value noise *)

Section ValueNoise.

Import Glsl Noise.
Local Open Scope R_scope.

Lemma fract_range (a : R) : 0 <= fract a < 1.
Proof.
  unfold fract, floor.
  destruct (base_fp a) as [H0 H1]; unfold frac_part in *.
  split; lra.
Qed.

Lemma hash_range (p : vec2) : 0 <= hash p < 1.
Proof. unfold hash; apply fract_range. Qed.

Lemma weight_range (f : R) : 0 <= f < 1 -> 0 <= f * f * (3 - f * 2) <= 1.
Proof.
  intros [H0 H1]; split.
  - apply Rmult_le_pos; [apply Rmult_le_pos; lra | lra].
  - assert (H : 0 <= (1 - f) * (1 - f) * (1 + 2 * f)).
    { apply Rmult_le_pos; [apply Rmult_le_pos; lra | lra]. }
    replace ((1 - f) * (1 - f) * (1 + 2 * f))
      with (1 - f * f * (3 - f * 2)) in H by ring.
    lra.
Qed.

Lemma weights_range (p : vec2) :
  unit (vx (weights (vfract p))) /\ unit (vy (weights (vfract p))).
Proof.
  unfold weights, vmul, ssubv, vscale, vfract, unit; cbn [vx vy].
  split; apply weight_range, fract_range.
Qed.

(** A bilinear blend with weights in [0,1] stays within any interval
    that holds the four corners. *)
Lemma bilinear_within (a b c d ux uy lo hi : R) :
  0 <= ux <= 1 -> 0 <= uy <= 1 ->
  lo <= a <= hi -> lo <= b <= hi -> lo <= c <= hi -> lo <= d <= hi ->
  lo <= mix a b ux + (c - a) * uy * (1 - ux) + (d - b) * ux * uy <= hi.
Proof.
  intros Hx Hy Ha Hb Hc Hd.
  set (w1 := (1 - ux) * (1 - uy)).
  set (w2 := ux * (1 - uy)).
  set (w3 := (1 - ux) * uy).
  set (w4 := ux * uy).
  assert (H1 : 0 <= w1) by (apply Rmult_le_pos; lra).
  assert (H2 : 0 <= w2) by (apply Rmult_le_pos; lra).
  assert (H3 : 0 <= w3) by (apply Rmult_le_pos; lra).
  assert (H4 : 0 <= w4) by (apply Rmult_le_pos; lra).
  assert (Hs : w1 + w2 + w3 + w4 = 1) by (unfold w1, w2, w3, w4; ring).
  replace (mix a b ux + (c - a) * uy * (1 - ux) + (d - b) * ux * uy)
    with (w1 * a + w2 * b + w3 * c + w4 * d)
    by (unfold mix, w1, w2, w3, w4; ring).
  assert (L1 : w1 * lo <= w1 * a <= w1 * hi) by (split; apply Rmult_le_compat_l; lra).
  assert (L2 : w2 * lo <= w2 * b <= w2 * hi) by (split; apply Rmult_le_compat_l; lra).
  assert (L3 : w3 * lo <= w3 * c <= w3 * hi) by (split; apply Rmult_le_compat_l; lra).
  assert (L4 : w4 * lo <= w4 * d <= w4 * hi) by (split; apply Rmult_le_compat_l; lra).
  assert (Hlo : (w1 + w2 + w3 + w4) * lo = lo) by (rewrite Hs; ring).
  assert (Hhi : (w1 + w2 + w3 + w4) * hi = hi) by (rewrite Hs; ring).
  clearbody w1 w2 w3 w4.
  split; nra.
Qed.

Lemma Rmin4_le (a b c d : R) :
  Rmin (Rmin a b) (Rmin c d) <= a /\ Rmin (Rmin a b) (Rmin c d) <= b /\
  Rmin (Rmin a b) (Rmin c d) <= c /\ Rmin (Rmin a b) (Rmin c d) <= d.
Proof.
  pose proof (Rmin_l a b); pose proof (Rmin_r a b).
  pose proof (Rmin_l c d); pose proof (Rmin_r c d).
  pose proof (Rmin_l (Rmin a b) (Rmin c d)).
  pose proof (Rmin_r (Rmin a b) (Rmin c d)).
  repeat split; lra.
Qed.

Lemma Rmax4_ge (a b c d : R) :
  a <= Rmax (Rmax a b) (Rmax c d) /\ b <= Rmax (Rmax a b) (Rmax c d) /\
  c <= Rmax (Rmax a b) (Rmax c d) /\ d <= Rmax (Rmax a b) (Rmax c d).
Proof.
  pose proof (Rmax_l a b); pose proof (Rmax_r a b).
  pose proof (Rmax_l c d); pose proof (Rmax_r c d).
  pose proof (Rmax_l (Rmax a b) (Rmax c d)).
  pose proof (Rmax_r (Rmax a b) (Rmax c d)).
  repeat split; lra.
Qed.

Lemma noise_within_corners (p : vec2) :
  Rmin (Rmin (corner_a p) (corner_b p)) (Rmin (corner_c p) (corner_d p))
    <= noise p
    <= Rmax (Rmax (corner_a p) (corner_b p)) (Rmax (corner_c p) (corner_d p)).
Proof.
  unfold noise; fold (corner_a p) (corner_b p) (corner_c p) (corner_d p).
  destruct (weights_range p) as [Hx Hy].
  destruct (Rmin4_le (corner_a p) (corner_b p) (corner_c p) (corner_d p))
    as [? [? [? ?]]].
  destruct (Rmax4_ge (corner_a p) (corner_b p) (corner_c p) (corner_d p))
    as [? [? [? ?]]].
  apply bilinear_within; try assumption; split; assumption.
Qed.

Lemma noise_range (p : vec2) : 0 <= noise p <= 1.
Proof.
  unfold noise.
  destruct (weights_range p) as [Hx Hy].
  apply bilinear_within; try assumption;
    match goal with |- _ <= hash ?q <= _ => pose proof (hash_range q); lra end.
Qed.

(** C10.  For every point [p] of the plane the value noise lies in
    [0,1]: the hash maps every lattice point into [0,1), the smoothstep
    weights [u = f*f*(3-2*f)] lie in [0,1], and the bilinear blend stays
    within the range of the four corner hash values. *)
Theorem noise_unit (p : vec2) :
  (forall q : vec2, 0 <= hash q < 1) /\
  unit (vx (weights (vfract p))) /\ unit (vy (weights (vfract p))) /\
  Rmin (Rmin (corner_a p) (corner_b p)) (Rmin (corner_c p) (corner_d p))
    <= noise p
    <= Rmax (Rmax (corner_a p) (corner_b p)) (Rmax (corner_c p) (corner_d p)) /\
  0 <= noise p <= 1.
Proof.
  split; [exact hash_range|].
  destruct (weights_range p) as [Hx Hy].
  split; [exact Hx|]. split; [exact Hy|].
  split; [apply noise_within_corners | apply noise_range].
Qed.

End ValueNoise.

(** ** The displacement height *)

Section Displacement.

Import Glsl Noise.
Local Open Scope R_scope.

Lemma clamp_unit (a : R) : 0 <= clamp a 0 1 <= 1.
Proof.
  unfold clamp.
  pose proof (Rmin_r (Rmax a 0) 1).
  pose proof (Rmax_r a 0).
  unfold Rmin in *; destruct (Rle_dec (Rmax a 0) 1); lra.
Qed.

Lemma smoothstep_range (e0 e1 a : R) : 0 <= smoothstep e0 e1 a <= 1.
Proof.
  unfold smoothstep.
  pose proof (clamp_unit ((a - e0) / (e1 - e0))) as Ht.
  set (t := clamp ((a - e0) / (e1 - e0)) 0 1) in *.
  split.
  - apply Rmult_le_pos; [apply Rmult_le_pos; lra | lra].
  - assert (H : 0 <= (1 - t) * (1 - t) * (1 + 2 * t)).
    { apply Rmult_le_pos; [apply Rmult_le_pos; lra | lra]. }
    replace ((1 - t) * (1 - t) * (1 + 2 * t))
      with (1 - t * t * (3 - 2 * t)) in H by ring.
    lra.
Qed.

(** C4.  For every [uv] (so for every [uv] of the unit square), every
    time, every pointer value and every [audioIntensity] in [0,1], the
    height is at most [baseAmp + ampGain + rippleMax], which is 1.475
    with the constants of the source (amplitude at most 0.2 + 0.9,
    ripple at most 0.5 * (0.25 + 0.5)); it is never negative either. *)
Theorem height_bounded (uv : vec2) (time : R) (pointer : vec2) (audio : R) :
  unit audio ->
  0 <= Shader000.height uv time pointer audio
    <= Shader000.baseAmp + Shader000.ampGain + Shader000.rippleMax /\
  Shader000.baseAmp + Shader000.ampGain + Shader000.rippleMax = 1.475.
Proof.
  intros [Ha0 Ha1].
  unfold Shader000.baseAmp, Shader000.ampGain, Shader000.rippleMax.
  split; [|lra].
  unfold Shader000.height.
  match goal with
  | |- _ <= noise ?q * _ + smoothstep ?e0 ?e1 ?m * _ * _ <= _ =>
      pose proof (noise_range q) as Hn;
      pose proof (smoothstep_range e0 e1 m) as Hs;
      generalize dependent (noise q); generalize dependent (smoothstep e0 e1 m)
  end.
  intros s Hs n Hn.
  split; nra.
Qed.

(** The theorem of C4 at the centre of the surface at full volume. *)
Lemma height_bounded_witness :
  unit 1 /\
  Shader000.height (mkvec2 (1/2) (1/2)) 0 (mkvec2 0 0) 1 <= 1.475.
Proof.
  assert (H : unit 1) by (unfold unit; lra).
  split; [exact H|].
  destruct (height_bounded (mkvec2 (1/2) (1/2)) 0 (mkvec2 0 0) 1 H)
    as [[_ Hle] Heq].
  rewrite <- Heq; exact Hle.
Defined.

End Displacement.

(** ** The colour *)

Section Colour.

Import Glsl.
Local Open Scope R_scope.

Lemma exp_le (a b : R) : a <= b -> exp a <= exp b.
Proof.
  intros [H | ->]; [left; now apply exp_increasing | right; reflexivity].
Qed.

Lemma ln_nonpos (a : R) : 0 < a <= 1 -> ln a <= 0.
Proof.
  intros [H0 [H1 | ->]].
  - left; rewrite <- ln_1; now apply ln_increasing.
  - right; apply ln_1.
Qed.

(** [pow(a, 1.5)] on the unit interval lies between [a * a] and 1. *)
Lemma pow_15_bounds (a : R) : unit a -> a * a <= pow a 1.5 <= 1.
Proof.
  intros [H0 H1]; unfold pow.
  destruct (Rlt_dec 0 a) as [Hpos | Hnpos].
  - pose proof (ln_nonpos a (conj Hpos H1)) as Hl.
    unfold Rpower.
    assert (Hsq : a * a = exp (ln a + ln a)).
    { rewrite exp_plus, exp_ln by exact Hpos; reflexivity. }
    rewrite Hsq; split.
    + apply exp_le; lra.
    + rewrite <- exp_0; apply exp_le; lra.
  - assert (a = 0) by lra; subst a; lra.
Qed.

Lemma scaled_unit (c v : R) : unit c -> unit v -> unit (c * v).
Proof. unfold unit; intros [? ?] [? ?]; split; nra. Qed.

Lemma smoothstep_pos (e0 e1 a : R) :
  0 < (a - e0) / (e1 - e0) -> 0 < smoothstep e0 e1 a.
Proof.
  intros H; unfold smoothstep.
  pose proof (clamp_unit ((a - e0) / (e1 - e0))) as Hc.
  assert (Hp : 0 < clamp ((a - e0) / (e1 - e0)) 0 1).
  { unfold clamp, Rmin, Rmax.
    destruct (Rle_dec ((a - e0) / (e1 - e0)) 0);
      destruct (Rle_dec _ 1); lra. }
  set (t := clamp ((a - e0) / (e1 - e0)) 0 1) in *.
  apply Rmult_lt_0_compat; [apply Rmult_lt_0_compat; lra | lra].
Qed.

(** A channel of part_000 before the vignette: base colours [k <= b],
    glow colour [g]. *)
Lemma colour000_channel (k b g y s a P : R) :
  0.02 <= k <= b -> 0.4 <= g -> b + 0.4 * g <= 0.972 ->
  unit y -> -1 <= s <= 1 -> unit a -> a * a <= P <= 1 ->
  unit (mix k b y + s * 0.02 * (0.2 + a * 1.2) + g * P * 0.4).
Proof.
  unfold unit, mix.
  intros [Hk0 Hk1] Hg Hbg [Hy0 Hy1] [Hs0 Hs1] [Ha0 Ha1] [HP0 HP1].
  assert (Hsp : - (0.2 + a * 1.2) <= s * (0.2 + a * 1.2) <= 0.2 + a * 1.2).
  { split; nra. }
  assert (Hm : k <= k * (1 - y) + b * y <= b).
  { split; nra. }
  assert (Haa : 0 <= a * a) by nra.
  assert (HgP : 0.4 * (a * a) <= g * P <= g).
  { split; nra. }
  pose proof (Rle_0_sqr (a - 0.075)) as Hsq; unfold Rsqr in Hsq.
  split; nra.
Qed.

Lemma clamp_id (a : R) : unit a -> clamp a 0 1 = a.
Proof.
  unfold unit, clamp, Rmin, Rmax; intros [H0 H1].
  destruct (Rle_dec a 0); destruct (Rle_dec _ 1); lra.
Qed.

(** The operand of [b * sin(...)] in [palette] is a [vec4]. *)
Lemma palette_operand_vec4 :
  Typing.typeof
    (Typing.Sin
       (Typing.Mul Typing.Lit
          (Typing.Add (Typing.Var Typing.TFloat)
             (Typing.Swizzle (Typing.Var (Typing.TVec 2%nat))
                [1; 0; 0; 1]%nat))))
    = Some (Typing.TVec 4%nat).
Proof. reflexivity. Qed.

(** C8.  For every valid input (uv in the unit square, any time,
    audioIntensity in [0,1]) every channel of the colour that the
    fragment shader of part_000 writes to [gl_FragColor] lies in the
    display range [0,1], alpha being 1: clamping the output to [0,1]
    leaves it as it is.  The fragment shader of part_001 writes no
    colour: its helper [palette] multiplies a [vec3] by a [vec4], so
    the shader is not compiled. *)
Theorem fragment_in_display_range (vUv : vec2) (time audio : R) :
  unit (vx vUv) -> unit (vy vUv) -> unit audio ->
  (unit (wx (Shader000.fragment vUv time audio)) /\
   unit (wy (Shader000.fragment vUv time audio)) /\
   unit (wz (Shader000.fragment vUv time audio)) /\
   ww (Shader000.fragment vUv time audio) = 1) /\
  (clamp (wx (Shader000.fragment vUv time audio)) 0 1
     = wx (Shader000.fragment vUv time audio) /\
   clamp (wy (Shader000.fragment vUv time audio)) 0 1
     = wy (Shader000.fragment vUv time audio) /\
   clamp (wz (Shader000.fragment vUv time audio)) 0 1
     = wz (Shader000.fragment vUv time audio) /\
   clamp (ww (Shader000.fragment vUv time audio)) 0 1
     = ww (Shader000.fragment vUv time audio)) /\
  Typing.typeof Shader001.palette_body = None /\
  Shader001.fragment_compiles = false.
Proof.
  intros Hx Hy Ha.
  pose proof (pow_15_bounds audio Ha) as HP.
  assert (Hc : unit (wx (Shader000.fragment vUv time audio)) /\
               unit (wy (Shader000.fragment vUv time audio)) /\
               unit (wz (Shader000.fragment vUv time audio)) /\
               ww (Shader000.fragment vUv time audio) = 1).
  { unfold Shader000.fragment; cbv zeta.
    cbn [wx wy wz ww cx cy cz scale3 add3 adds3 mix3].
    pose proof (SIN_bound (time * 0.2 + vx vUv * 6)) as Hs.
    pose proof (smoothstep_range 1 0.2 (length (vsubs vUv 0.5))) as Hv.
    repeat split; try (apply scaled_unit; [|exact Hv]);
      try (apply colour000_channel; try assumption; lra); try apply Hv. }
  destruct Hc as (Cx & Cy & Cz & Cw).
  split; [repeat split; solve [apply Cx | apply Cy | apply Cz | exact Cw]|].
  split; [|split; reflexivity].
  repeat split; try (apply clamp_id; assumption).
  rewrite Cw; apply clamp_id; unfold unit; lra.
Qed.

(** The theorem of C8 at the centre of the surface, at time 0 and full
    volume. *)
Lemma fragment_in_display_range_witness :
  unit (vx (mkvec2 (1/2) (1/2))) /\ unit (vy (mkvec2 (1/2) (1/2))) /\
  unit 1 /\
  unit (wz (Shader000.fragment (mkvec2 (1/2) (1/2)) 0 1)).
Proof.
  assert (Hx : unit (vx (mkvec2 (1/2) (1/2)))) by (unfold unit; cbn; lra).
  assert (Hy : unit (vy (mkvec2 (1/2) (1/2)))) by (unfold unit; cbn; lra).
  assert (Ha : unit 1) by (unfold unit; lra).
  split; [exact Hx|]. split; [exact Hy|]. split; [exact Ha|].
  exact (proj1 (proj2 (proj2 (proj1
           (fragment_in_display_range (mkvec2 (1/2) (1/2)) 0 1 Hx Hy Ha))))).
Defined.

End Colour.

(** ** The render loop of the landing-page variant *)

Section Loop001.

Import Js Browser.

(** A frame with no callback waiting runs nothing. *)
Lemma frames001_idle (n : nat) :
  forall w : App001.World,
    pending (App001.raf w) = [] -> App001.frames_n n w = w.
Proof.
  induction n as [|n IH]; intros w Hw; cbn [App001.frames_n];
    [reflexivity|].
  assert (Hf : App001.frame w = w).
  { unfold App001.frame; rewrite Hw; reflexivity. }
  rewrite Hf; now apply IH.
Qed.

(** The effect of part_001 throws at its first statement; nothing of
    the world has changed by then. *)
Lemma run_effect001_throws (w : App001.World) :
  App001.run_effect w = (w, App001.Threw App001.InvalidHookCall) /\
  App001.mount w = w.
Proof. split; reflexivity. Qed.

End Loop001.

(** ** The render loop of the audio-reactive variant *)

Section Loop000.

Import Js Three Browser App000.

Lemma modify_length {A : Type} (f : A -> A) (l : list A) :
  forall k, length (modify k f l) = length l.
Proof.
  induction l as [|a l IH]; intros [|k]; simpl; auto.
Qed.

Lemma nth_error_modify_same {A : Type} (f : A -> A) (l : list A) :
  forall k, nth_error (modify k f l) k = option_map f (nth_error l k).
Proof.
  induction l as [|a l IH]; intros [|k]; simpl; auto.
Qed.

Lemma nth_error_modify_other {A : Type} (f : A -> A) (l : list A) :
  forall k j, k <> j -> nth_error (modify k f l) j = nth_error l j.
Proof.
  induction l as [|a l IH]; intros [|k] [|j] H; simpl; auto.
  - congruence.
Qed.

Lemma map_modify_preserving {A B : Type} (g : A -> B) (f : A -> A)
  (l : list A) :
  (forall a, g (f a) = g a) ->
  forall k, map g (modify k f l) = map g l.
Proof.
  intros H; induction l as [|a l IH]; intros [|k]; simpl; auto.
  - now rewrite H.
  - now rewrite IH.
Qed.

Lemma map_modify_const {A B : Type} (g : A -> B) (f : A -> A) (v : B)
  (l : list A) :
  (forall a, g (f a) = v) ->
  forall k, map g (modify k f l) = modify k (fun _ => v) (map g l).
Proof.
  intros H; induction l as [|a l IH]; intros [|k]; simpl; auto.
  - now rewrite H.
  - now rewrite IH.
Qed.

(** What a tick leaves alone, and what it does to the frame list and to
    the handles the sessions hold. *)
Lemma animate_frame (i : nat) (h : HostInput) (w : World) (s : Session) :
  nth_error (sessions w) i = Some s ->
  volume (animate i h w) = volume w /\
  isPlaying (animate i h w) = isPlaying w /\
  mouseRef (animate i h w) = mouseRef w /\
  uniformsRef (animate i h w) = uniformsRef w /\
  analyserRef (animate i h w) = analyserRef w /\
  audioElRef (animate i h w) = audioElRef w /\
  children (animate i h w) = children w /\
  effect (animate i h w) = effect w /\
  ticks (animate i h w) = S (ticks w) /\
  raf (animate i h w) = fst (request i (raf w)) /\
  map rafId (sessions (animate i h w))
    = modify i (fun _ => Some (S (last (raf w)))) (map rafId (sessions w)).
Proof.
  intros Hs; unfold animate; rewrite Hs.
  unfold request; destruct (getElapsedTime (now h) (clock s)) as [c t].
  unfold uniforms_block, audio_block, modify_session.
  destruct w as [vol pl mr ur an da ae r ch ss ef tk].
  destruct ur as [j|], an, da as [arr|];
    cbn [volume isPlaying mouseRef uniformsRef analyserRef dataArrayRef
         audioElRef raf children sessions effect ticks set_raf set_sessions
         set_analyser count_tick fst];
    repeat split;
    repeat (rewrite map_modify_preserving by (intros []; reflexivity));
    apply map_modify_const; intros []; reflexivity.
Qed.

Lemma loop_invariant_ext (w w' : World) :
  effect w' = effect w -> sessions w' = sessions w -> raf w' = raf w ->
  loop_invariant w -> loop_invariant w'.
Proof.
  unfold loop_invariant; intros -> -> ->; auto.
Qed.

(** The effect, run while no callback waits, starts the one loop. *)
Lemma run_effect_invariant (h : HostInput) (w : World) :
  pending (raf w) = [] -> loop_invariant (run_effect h w).
Proof.
  intros Hp; unfold run_effect.
  set (i := length (sessions w)).
  set (w1 := set_effect _ _).
  assert (Hs : nth_error (sessions w1) i = Some new_session).
  { unfold w1; cbn. unfold i.
    rewrite nth_error_app2, Nat.sub_diag by lia; reflexivity. }
  destruct (animate_frame i h w1 new_session Hs)
    as (_ & _ & _ & _ & _ & _ & _ & He & _ & Hr & Hm).
  unfold loop_invariant; rewrite He.
  replace (effect w1) with (Some i) by reflexivity.
  exists (S (last (raf w1))); split.
  - rewrite Hm, nth_error_modify_same, nth_error_map, Hs; reflexivity.
  - rewrite Hr; unfold request; cbn [fst pending].
    replace (raf w1) with (raf w) by reflexivity.
    now rewrite Hp.
Qed.

Lemma cancel_only (id i : nat) (r : Raf) :
  pending r = [(id, i)] -> pending (cancel id r) = [].
Proof.
  intros H; unfold cancel; cbn [pending]; rewrite H; cbn [filter fst].
  now rewrite Nat.eqb_refl.
Qed.

(** The cleanup never throws, whatever the state. *)
Lemma cleanup_normal (i : nat) (w : World) : snd (cleanup i w) = Normal tt.
Proof.
  unfold cleanup.
  destruct (nth_error (sessions w) i) as [s|]; [|reflexivity].
  match goal with |- context [removeChild ?n ?c] => destruct (removeChild n c) end;
    reflexivity.
Qed.

(** What the cleanup leaves alone. *)
Lemma cleanup_frame (i : nat) (w : World) :
  volume (fst (cleanup i w)) = volume w /\
  isPlaying (fst (cleanup i w)) = isPlaying w /\
  mouseRef (fst (cleanup i w)) = mouseRef w /\
  uniformsRef (fst (cleanup i w)) = uniformsRef w /\
  analyserRef (fst (cleanup i w)) = analyserRef w /\
  dataArrayRef (fst (cleanup i w)) = dataArrayRef w /\
  audioElRef (fst (cleanup i w)) = audioElRef w /\
  effect (fst (cleanup i w)) = effect w /\
  ticks (fst (cleanup i w)) = ticks w /\
  length (sessions (fst (cleanup i w))) = length (sessions w).
Proof.
  unfold cleanup.
  destruct (nth_error (sessions w) i) as [s|]; [|cbn; tauto].
  destruct w as [vol pl mr ur an da ae r ch ss ef tk].
  unfold modify_session.
  destruct (rafId s) as [id|];
    cbn [volume isPlaying mouseRef uniformsRef analyserRef dataArrayRef
         audioElRef raf children sessions effect ticks set_raf set_sessions];
    match goal with |- context [removeChild ?n ?c] => destruct (removeChild n c) end;
    cbn; rewrite !modify_length; tauto.
Qed.

(** The cleanup of the mounted session cancels the waiting callback. *)
Lemma cleanup_cancels (i : nat) (w : World) :
  loop_invariant w -> effect w = Some i ->
  pending (raf (fst (cleanup i w))) = [].
Proof.
  unfold loop_invariant; intros Hinv He; rewrite He in Hinv.
  destruct Hinv as [id [Hid Hp]].
  rewrite nth_error_map in Hid.
  unfold cleanup.
  destruct (nth_error (sessions w) i) as [s|]; [|discriminate].
  cbn in Hid; injection Hid as Hid; rewrite Hid.
  destruct w as [vol pl mr ur an da ae r ch ss ef tk].
  unfold modify_session.
  cbn [raf sessions children set_raf set_sessions] in *.
  match goal with |- context [removeChild ?n ?c] => destruct (removeChild n c) end;
    cbn [fst raf set_children]; now apply cancel_only with i.
Qed.

Lemma frame_invariant (h : HostInput) (w : World) :
  loop_invariant w -> loop_invariant (frame h w).
Proof.
  unfold loop_invariant at 1; intros Hinv; unfold frame.
  destruct (effect w) as [i|] eqn:He.
  - destruct Hinv as [id [Hid Hp]]; rewrite Hp; cbn [run_callbacks].
    assert (His : is_pending id (raf w) = true).
    { unfold is_pending; rewrite Hp; cbn. now rewrite Nat.eqb_refl. }
    rewrite His.
    set (w1 := set_raf (cancel id (raf w)) w).
    assert (Hp1 : pending (raf w1) = []) by (apply cancel_only with i; exact Hp).
    rewrite nth_error_map in Hid.
    destruct (nth_error (sessions w) i) as [s|] eqn:Hs; [|discriminate].
    destruct (animate_frame i h w1 s Hs)
      as (_ & _ & _ & _ & _ & _ & _ & He1 & _ & Hr & Hm).
    unfold loop_invariant; rewrite He1.
    replace (effect w1) with (Some i) by (symmetry; exact He).
    exists (S (last (raf w1))); split.
    + rewrite Hm, nth_error_modify_same, nth_error_map.
      replace (sessions w1) with (sessions w) by reflexivity.
      now rewrite Hs.
    + rewrite Hr; unfold request; cbn [fst pending]. now rewrite Hp1.
  - rewrite Hinv; cbn [run_callbacks]. unfold loop_invariant; now rewrite He.
Qed.

Lemma handleVolume_invariant (v : Q) (h : HostInput) (w : World) :
  loop_invariant w -> loop_invariant (handleVolume v h w).
Proof.
  intros Hinv; unfold handleVolume.
  set (w2 := match audioElRef (set_volume (clamp01 v) w) with
             | Some el => _
             | None => _
             end).
  assert (Hinv2 : loop_invariant w2).
  { apply loop_invariant_ext with w; try exact Hinv;
      unfold w2; destruct w as [vol pl mr ur an da [el|] r ch ss ef tk];
      reflexivity. }
  destruct (negb (Qeq_bool (clamp01 v) (volume w))); [|exact Hinv2].
  destruct (effect w2) as [i|] eqn:He; [|exact Hinv2].
  apply run_effect_invariant, cleanup_cancels; assumption.
Qed.

Lemma step_invariant (w : World) (ev : Event) :
  loop_invariant w -> loop_invariant (step w ev).
Proof.
  intros Hinv;
    destruct ev as [h | i rect e | ok | vl st | ok | | | v h]; cbn [step].
  - now apply frame_invariant.
  - apply loop_invariant_ext with w; try exact Hinv;
      unfold pointermove;
      destruct (nth_error (sessions w) i) as [s|]; try reflexivity;
      destruct (listening s); reflexivity.
  - apply loop_invariant_ext with w; try exact Hinv;
      unfold handlePlay;
      destruct w as [vol pl mr ur [|] da [el|] r ch ss ef tk], ok; reflexivity.
  - apply loop_invariant_ext with w; try exact Hinv;
      unfold handlePlay_begin;
      destruct w as [vol pl mr ur an da [el|] r ch ss ef tk]; reflexivity.
  - apply loop_invariant_ext with w; try exact Hinv;
      unfold handlePlay_end;
      destruct w as [vol pl mr ur [|] da [el|] r ch ss ef tk], ok; reflexivity.
  - apply loop_invariant_ext with w; try exact Hinv;
      unfold ended;
      destruct w as [vol pl mr ur an da [el|] r ch ss ef tk]; reflexivity.
  - apply loop_invariant_ext with w; try exact Hinv;
      unfold handlePause;
      destruct w as [vol pl mr ur an da [el|] r ch ss ef tk]; reflexivity.
  - now apply handleVolume_invariant.
Qed.

Lemma run_invariant (evs : list Event) :
  forall w, loop_invariant w -> loop_invariant (run evs w).
Proof.
  unfold run; induction evs as [|ev evs IH]; intros w Hinv; cbn [fold_left].
  - exact Hinv.
  - apply IH, step_invariant, Hinv.
Qed.

Lemma unmount_quiet (w : World) : loop_invariant w -> quiet (unmount w).
Proof.
  intros Hinv; unfold unmount, quiet.
  destruct (effect w) as [i|] eqn:He.
  - split; [reflexivity|].
    replace (raf (set_effect None (fst (cleanup i w))))
      with (raf (fst (cleanup i w))) by reflexivity.
    now apply cleanup_cancels.
  - split; [exact He|]. unfold loop_invariant in Hinv; now rewrite He in Hinv.
Qed.

Lemma step_quiet (w : World) (ev : Event) :
  quiet w -> quiet (step w ev) /\ ticks (step w ev) = ticks w.
Proof.
  unfold quiet; intros [He Hp].
  destruct ev as [h | i rect e | ok | vl st | ok | | | v h]; cbn [step].
  - unfold frame; rewrite Hp; cbn [run_callbacks]; tauto.
  - unfold pointermove.
    destruct (nth_error (sessions w) i) as [s|]; [|tauto].
    destruct (listening s); tauto.
  - unfold handlePlay.
    destruct w as [vol pl mr ur [|] da [el|] r ch ss ef tk], ok; cbn in *; tauto.
  - unfold handlePlay_begin.
    destruct w as [vol pl mr ur an da [el|] r ch ss ef tk]; cbn in *; tauto.
  - unfold handlePlay_end.
    destruct w as [vol pl mr ur [|] da [el|] r ch ss ef tk], ok; cbn in *; tauto.
  - unfold ended.
    destruct w as [vol pl mr ur an da [el|] r ch ss ef tk]; cbn in *; tauto.
  - unfold handlePause.
    destruct w as [vol pl mr ur an da [el|] r ch ss ef tk]; cbn in *; tauto.
  - unfold handleVolume.
    destruct w as [vol pl mr ur an da [el|] r ch ss ef tk]; cbn in *; subst ef;
      destruct (negb (Qeq_bool (clamp01 v) vol)); cbn; tauto.
Qed.

Lemma run_quiet (evs : list Event) :
  forall w, quiet w -> quiet (run evs w) /\ ticks (run evs w) = ticks w.
Proof.
  unfold run; induction evs as [|ev evs IH]; intros w Hq; cbn [fold_left].
  - tauto.
  - destruct (step_quiet w ev Hq) as [Hq' Ht].
    destruct (IH _ Hq') as [Hq'' Ht']. split; [exact Hq''|congruence].
Qed.

(** In part_000, whatever happened since the mount, the cleanup cancels
    the pending tick, no tick executes after it whatever happens next,
    and the cleanup closure run a second time does not throw. *)
Lemma cleanup000_stops_loop (h0 : HostInput) (before after : list Event) :
  let w := unmount (run before (mount h0 initial)) in
  pending (raf w) = [] /\
  ticks (run after w) = ticks w /\
  (forall i w', snd (cleanup i (fst (cleanup i w'))) = Normal tt).
Proof.
  intros w.
  assert (Hq : quiet w).
  { apply unmount_quiet, run_invariant, run_effect_invariant; reflexivity. }
  split; [exact (proj2 Hq)|].
  split; [exact (proj2 (run_quiet after w Hq))|].
  intros i w'; apply cleanup_normal.
Qed.

(** Each tick of the mounted session takes one step of the pointer
    smoother at the rate of part_000. *)
Lemma animate_steps_smoother (i : nat) (h : HostInput) (w : World)
  (s : Session) :
  nth_error (sessions w) i = Some s ->
  uniformsRef w = Some i ->
  exists s' : Session,
    nth_error (sessions (animate i h w)) i = Some s' /\
    uMouse (uniforms s')
      = Pointer.current
          (Pointer.step_000
             (Pointer.mkSmoother (uMouse (uniforms s)) (mouseRef w))).
Proof.
  intros Hs Hur; unfold animate; rewrite Hs.
  unfold request; destruct (getElapsedTime (now h) (clock s)) as [c t].
  unfold uniforms_block, audio_block, modify_session.
  destruct w as [vol pl mr ur an da ae r ch ss ef tk].
  cbn [uniformsRef sessions] in Hur, Hs; subst ur.
  destruct an, da as [arr|];
    cbn [volume isPlaying mouseRef uniformsRef analyserRef dataArrayRef
         audioElRef raf children sessions effect ticks set_raf set_sessions
         set_analyser count_tick fst];
    rewrite !nth_error_modify_same, Hs; cbn; eexists; split; reflexivity.
Qed.

(** ** The volume handler *)

Lemma clamp01_unit (v : Q) : (0 <= clamp01 v <= 1)%Q.
Proof.
  unfold clamp01; split.
  - apply Q.le_max_l.
  - apply Q.max_lub; [discriminate | apply Q.le_min_l].
Qed.

(** A tick of the session that [uniformsRef] points to touches no
    other session. *)
Lemma animate_other (i k : nat) (h : HostInput) (w : World) :
  uniformsRef w = Some i -> k <> i ->
  nth_error (sessions (animate i h w)) k = nth_error (sessions w) k.
Proof.
  intros Hur Hk; unfold animate.
  destruct (nth_error (sessions w) i) as [s|]; [|reflexivity].
  unfold request; destruct (getElapsedTime (now h) (clock s)) as [c t].
  unfold uniforms_block, audio_block, modify_session.
  destruct w as [vol pl mr ur an da ae r ch ss ef tk].
  cbn [uniformsRef] in Hur; subst ur.
  destruct an, da as [arr|];
    cbn [volume isPlaying mouseRef uniformsRef analyserRef dataArrayRef
         audioElRef raf children sessions effect ticks set_raf set_sessions
         set_analyser count_tick fst];
    repeat (rewrite nth_error_modify_other by auto); reflexivity.
Qed.

(** The first tick of a session just created. *)
Lemma animate_first_tick (i : nat) (h : HostInput) (w : World) :
  nth_error (sessions w) i = Some new_session ->
  uniformsRef w = Some i ->
  exists s : Session,
    nth_error (sessions (animate i h w)) i = Some s /\
    uTime (uniforms s) = 0%Q /\ frames s = 1%nat /\ disposed s = false.
Proof.
  intros Hs Hur; unfold animate; rewrite Hs.
  unfold request, new_session at 1, getElapsedTime; cbn [clock running].
  unfold uniforms_block, audio_block, modify_session.
  destruct w as [vol pl mr ur an da ae r ch ss ef tk].
  cbn [uniformsRef sessions] in Hur, Hs; subst ur.
  destruct an, da as [arr|];
    cbn [volume isPlaying mouseRef uniformsRef analyserRef dataArrayRef
         audioElRef raf children sessions effect ticks set_raf set_sessions
         set_analyser count_tick fst];
    rewrite !nth_error_modify_same, Hs; cbn; eexists; repeat split.
Qed.

(** What the effect leaves alone, and what it sets up. *)
Lemma run_effect_frame (h : HostInput) (w : World) :
  volume (run_effect h w) = volume w /\
  isPlaying (run_effect h w) = isPlaying w /\
  mouseRef (run_effect h w) = mouseRef w /\
  analyserRef (run_effect h w) = analyserRef w /\
  audioElRef (run_effect h w) = audioElRef w /\
  uniformsRef (run_effect h w) = Some (length (sessions w)) /\
  effect (run_effect h w) = Some (length (sessions w)) /\
  ticks (run_effect h w) = S (ticks w) /\
  (forall k, k < length (sessions w) ->
     nth_error (sessions (run_effect h w)) k = nth_error (sessions w) k)%nat /\
  exists s : Session,
    nth_error (sessions (run_effect h w)) (length (sessions w)) = Some s /\
    uTime (uniforms s) = 0%Q /\ frames s = 1%nat /\ disposed s = false.
Proof.
  unfold run_effect.
  set (i := length (sessions w)).
  set (w1 := set_effect _ _).
  assert (Hs : nth_error (sessions w1) i = Some new_session).
  { unfold w1; cbn. unfold i.
    rewrite nth_error_app2, Nat.sub_diag by lia; reflexivity. }
  assert (Hur : uniformsRef w1 = Some i) by reflexivity.
  destruct (animate_frame i h w1 new_session Hs)
    as (H1 & H2 & H3 & H4 & H5 & H6 & _ & H8 & H9 & _ & _).
  rewrite H1, H2, H3, H4, H5, H6, H8, H9.
  repeat (split; [reflexivity|]).
  split.
  - intros k Hk. rewrite animate_other by (auto; lia).
    unfold w1; cbn. now rewrite nth_error_app1 by exact Hk.
  - now apply animate_first_tick.
Qed.

(** The cleanup disposes of its session. *)
Lemma cleanup_disposes (i : nat) (w : World) (s : Session) :
  nth_error (sessions w) i = Some s ->
  option_map disposed (nth_error (sessions (fst (cleanup i w))) i) = Some true.
Proof.
  intros Hs; unfold cleanup; rewrite Hs.
  destruct w as [vol pl mr ur an da ae r ch ss ef tk].
  unfold modify_session; cbn [sessions] in Hs.
  destruct (rafId s) as [id|];
    cbn [raf children sessions set_raf set_sessions];
    match goal with |- context [removeChild ?n ?c] => destruct (removeChild n c) end;
    cbn [fst raf children sessions set_raf set_sessions set_children];
    rewrite !nth_error_modify_same, Hs; reflexivity.
Qed.

(** C9 (as amended).  Setting the volume to any number stores the gain
    clamped to [0,1], on the component and on the audio element; the
    audio session is not restarted (the audio element keeps its play
    state, the analyser and the playing flag are unchanged) and the raw
    pointer sample is unchanged.  When the clamped value equals the
    stored volume the render session is untouched.  When it differs,
    the effect, which depends on [volume], is re-run: the mounted render
    session is cleaned up and disposed of, and a new session starts with
    fresh uniforms and a restarted clock, its first tick executed. *)
Theorem handleVolume_effect (v : Q) (h : HostInput) (w : World) (i : nat) :
  loop_invariant w -> effect w = Some i ->
  ((0 <= volume (handleVolume v h w) <= 1)%Q /\
   volume (handleVolume v h w) = clamp01 v /\
   audioElRef (handleVolume v h w)
     = option_map (fun el => mkAudioEl (clamp01 v) (el_paused el))
                  (audioElRef w)) /\
  (isPlaying (handleVolume v h w) = isPlaying w /\
   analyserRef (handleVolume v h w) = analyserRef w /\
   mouseRef (handleVolume v h w) = mouseRef w) /\
  ((clamp01 v == volume w)%Q ->
   sessions (handleVolume v h w) = sessions w /\
   raf (handleVolume v h w) = raf w /\
   effect (handleVolume v h w) = effect w /\
   uniformsRef (handleVolume v h w) = uniformsRef w /\
   children (handleVolume v h w) = children w /\
   dataArrayRef (handleVolume v h w) = dataArrayRef w /\
   ticks (handleVolume v h w) = ticks w) /\
  (~ (clamp01 v == volume w)%Q ->
   effect (handleVolume v h w) = Some (length (sessions w)) /\
   uniformsRef (handleVolume v h w) = Some (length (sessions w)) /\
   i <> length (sessions w) /\
   option_map disposed (nth_error (sessions (handleVolume v h w)) i)
     = Some true /\
   (exists s : Session,
      nth_error (sessions (handleVolume v h w)) (length (sessions w)) = Some s /\
      uTime (uniforms s) = 0%Q /\ frames s = 1%nat /\ disposed s = false) /\
   ticks (handleVolume v h w) = S (ticks w)).
Proof.
  intros Hinv He.
  pose proof (clamp01_unit v) as Hu.
  unfold handleVolume.
  destruct (Qeq_bool (clamp01 v) (volume w)) eqn:E; cbn [negb].
  - apply Qeq_bool_iff in E.
    clear Hinv.
    destruct w as [vol pl mr ur an da [el|] r ch ss ef tk];
      cbn [volume isPlaying mouseRef uniformsRef analyserRef dataArrayRef
           audioElRef raf children sessions effect ticks set_volume
           set_audioElRef option_map] in *;
      (split; [split; [exact Hu | split; reflexivity]|]);
      (split; [repeat split|]);
      (split; [intros _; repeat split | intros Hne; contradiction]).
  - assert (Hne : ~ (clamp01 v == volume w)%Q).
    { intros H; apply Qeq_bool_iff in H; congruence. }
    set (w2 := match audioElRef (set_volume (clamp01 v) w) with
               | Some el => _
               | None => _
               end).
    assert (H2 : volume w2 = clamp01 v /\
                 audioElRef w2
                   = option_map (fun el => mkAudioEl (clamp01 v) (el_paused el))
                                (audioElRef w) /\
                 isPlaying w2 = isPlaying w /\ analyserRef w2 = analyserRef w /\
                 mouseRef w2 = mouseRef w /\ effect w2 = effect w /\
                 sessions w2 = sessions w /\ raf w2 = raf w /\
                 ticks w2 = ticks w).
    { unfold w2; destruct w as [vol pl mr ur an da [el|] r ch ss ef tk];
        cbn; repeat split. }
    destruct H2 as (V & A & P & N & M & F & S2 & R2 & T2).
    rewrite F, He.
    destruct (cleanup_frame i w2) as (C1 & C2 & C3 & _ & C5 & _ & C7 & _ & C9 & C10).
    destruct (run_effect_frame h (fst (cleanup i w2)))
      as (E1 & E2 & E3 & E4 & E5 & E6 & E7 & E8 & E9 & E10).
    rewrite C10, S2 in E6, E7, E9, E10.
    assert (Hi : (i < length (sessions w))%nat).
    { unfold loop_invariant in Hinv; rewrite He in Hinv.
      destruct Hinv as [id [Hid _]].
      rewrite <- (length_map rafId). apply nth_error_Some; congruence. }
    destruct (nth_error (sessions w2) i) as [s|] eqn:Hs.
    2:{ apply nth_error_None in Hs; rewrite S2 in Hs; lia. }
    split; [rewrite E1, C1, V, E5, C7, A;
            split; [exact Hu | split; reflexivity]|].
    split; [rewrite E2, C2, P, E4, C5, N, E3, C3, M; repeat split|].
    split; [intros H; contradiction|].
    intros _.
    split; [exact E7|]. split; [exact E6|]. split; [lia|].
    split; [rewrite E9 by exact Hi; now apply cleanup_disposes with s|].
    split; [exact E10|].
    now rewrite E8, C9, T2.
Qed.

(** The theorem of C9 at the component just mounted, the volume set
    from 0.7 to 0.5. *)
Lemma handleVolume_effect_witness :
  loop_invariant (mount (mkHostInput 0 []) initial) /\
  effect (mount (mkHostInput 0 []) initial) = Some 0%nat /\
  volume (handleVolume (1 # 2) (mkHostInput 0 [])
            (mount (mkHostInput 0 []) initial))
    = clamp01 (1 # 2).
Proof.
  assert (Hinv : loop_invariant (mount (mkHostInput 0 []) initial)).
  { vm_compute; exists 1%nat; split; reflexivity. }
  assert (He : effect (mount (mkHostInput 0 []) initial) = Some 0%nat).
  { vm_compute; reflexivity. }
  split; [exact Hinv|]. split; [exact He|].
  exact (proj1 (proj2 (proj1
           (handleVolume_effect (1 # 2) (mkHostInput 0 [])
              (mount (mkHostInput 0 []) initial) 0 Hinv He)))).
Defined.

(** C9 as stated fails: a change of the volume restarts the render
    session.  One second after the mount the volume is set from 0.7 to
    0.5: the mounted session changes from 0 to 1, session 0 is disposed
    of, the number of sessions grows, and the time uniform is back from
    1 to 0. *)
Lemma volume_change_restarts_render :
  let w := frame (mkHostInput 1000 []) (mount (mkHostInput 0 []) initial) in
  let w' := handleVolume (1 # 2) (mkHostInput 2000 []) w in
  effect w = Some 0%nat /\ effect w' = Some 1%nat /\
  length (sessions w) = 1%nat /\ length (sessions w') = 2%nat /\
  option_map disposed (nth_error (sessions w') 0) = Some true /\
  match current_uniforms w, current_uniforms w' with
  | Some u, Some u' => (uTime u == 1)%Q /\ (uTime u' == 0)%Q
  | _, _ => False
  end.
Proof.
  vm_compute; repeat split.
Qed.

(** ** The snapshot the loop reduces *)

Lemma getByteFrequencyData_length (array data : Audio.Uint8Array) :
  length (getByteFrequencyData array data) = length array.
Proof.
  unfold getByteFrequencyData.
  rewrite length_app, length_firstn, length_skipn; lia.
Qed.

Lemma snapshot_ok_ext (w w' : World) :
  dataArrayRef w' = dataArrayRef w -> snapshot_ok w -> snapshot_ok w'.
Proof. unfold snapshot_ok; intros ->; auto. Qed.

Lemma animate_snapshot_ok (i : nat) (h : HostInput) (w : World) :
  snapshot_ok w -> snapshot_ok (animate i h w).
Proof.
  unfold snapshot_ok, animate.
  destruct (nth_error (sessions w) i) as [s|]; [|auto].
  unfold request; destruct (getElapsedTime (now h) (clock s)) as [c t].
  unfold uniforms_block, audio_block, modify_session.
  destruct w as [vol pl mr ur an da ae r ch ss ef tk].
  destruct ur as [j|], an, da as [arr|];
    cbn [volume isPlaying mouseRef uniformsRef analyserRef dataArrayRef
         audioElRef raf children sessions effect ticks set_raf set_sessions
         set_analyser count_tick fst]; auto.
  now rewrite getByteFrequencyData_length.
Qed.

Lemma run_callbacks_snapshot_ok (h : HostInput) (hs : list (nat * nat)) :
  forall w, snapshot_ok w -> snapshot_ok (run_callbacks hs h w).
Proof.
  induction hs as [|[id i] hs IH]; intros w Hw; cbn [run_callbacks].
  - exact Hw.
  - destruct (is_pending id (raf w)); apply IH; [|exact Hw].
    apply animate_snapshot_ok.
    now apply snapshot_ok_ext with w.
Qed.

Lemma run_effect_snapshot_ok (h : HostInput) (w : World) :
  snapshot_ok w -> snapshot_ok (run_effect h w).
Proof.
  intros Hw; unfold run_effect.
  apply animate_snapshot_ok. now apply snapshot_ok_ext with w.
Qed.

Lemma step_snapshot_ok (w : World) (ev : Event) :
  snapshot_ok w -> snapshot_ok (step w ev).
Proof.
  intros Hw;
    destruct ev as [h | i rect e | ok | vl st | ok | | | v h]; cbn [step].
  - now apply run_callbacks_snapshot_ok.
  - apply snapshot_ok_ext with w; [|exact Hw].
    unfold pointermove.
    destruct (nth_error (sessions w) i) as [s|]; [|reflexivity].
    destruct (listening s); reflexivity.
  - unfold handlePlay, snapshot_ok in *.
    destruct w as [vol pl mr ur [|] da [el|] r ch ss ef tk], ok; cbn in *;
      auto.
  - apply snapshot_ok_ext with w; [|exact Hw].
    unfold handlePlay_begin.
    destruct w as [vol pl mr ur an da [el|] r ch ss ef tk]; reflexivity.
  - unfold handlePlay_end, snapshot_ok in *.
    destruct w as [vol pl mr ur [|] da [el|] r ch ss ef tk], ok; cbn in *;
      auto.
  - apply snapshot_ok_ext with w; [|exact Hw].
    unfold ended.
    destruct w as [vol pl mr ur an da [el|] r ch ss ef tk]; reflexivity.
  - apply snapshot_ok_ext with w; [|exact Hw].
    unfold handlePause.
    destruct w as [vol pl mr ur an da [el|] r ch ss ef tk]; reflexivity.
  - unfold handleVolume.
    set (w2 := match audioElRef (set_volume (clamp01 v) w) with
               | Some el => _
               | None => _
               end).
    assert (H2 : snapshot_ok w2).
    { apply snapshot_ok_ext with w; [|exact Hw].
      unfold w2; destruct w as [vol pl mr ur an da [el|] r ch ss ef tk];
        reflexivity. }
    destruct (negb (Qeq_bool (clamp01 v) (volume w))); [|exact H2].
    destruct (effect w2) as [i|]; [|exact H2].
    apply run_effect_snapshot_ok.
    apply snapshot_ok_ext with w2; [|exact H2].
    exact (proj1 (proj2 (proj2 (proj2 (proj2 (proj2 (cleanup_frame i w2))))))).
Qed.

(** Whatever happens after the mount, the snapshot that the audio block
    reduces has 256 entries: the lengths below four, the empty one among
    them, do not arise in the loop. *)
Lemma snapshot_has_256_entries (h0 : HostInput) (evs : list Event)
  (a : Audio.Uint8Array) :
  dataArrayRef (run evs (mount h0 initial)) = Some a -> length a = 256%nat.
Proof.
  assert (H : forall evs w, snapshot_ok w -> snapshot_ok (run evs w)).
  { unfold run; intros l; induction l as [|ev l IH]; intros w Hw;
      cbn [fold_left]; [exact Hw|].
    apply IH, step_snapshot_ok, Hw. }
  intros Ha.
  assert (H0 : snapshot_ok (mount h0 initial)).
  { apply run_effect_snapshot_ok; exact I. }
  specialize (H evs _ H0); unfold snapshot_ok in H.
  now rewrite Ha in H.
Qed.

End Loop000.

(** * Further properties of the shaders *)

Section SurfaceShape.

Import Glsl Noise.
Local Open Scope R_scope.

Lemma smoothstep_below (e0 e1 a : R) :
  (a - e0) / (e1 - e0) <= 0 -> smoothstep e0 e1 a = 0.
Proof.
  intros H; unfold smoothstep, clamp.
  rewrite (Rmax_right _ 0) by exact H.
  rewrite Rmin_left by lra. ring.
Qed.

Lemma smoothstep_above (e0 e1 a : R) :
  1 <= (a - e0) / (e1 - e0) -> smoothstep e0 e1 a = 1.
Proof.
  intros H; unfold smoothstep, clamp.
  rewrite (Rmax_left _ 0) by lra.
  rewrite Rmin_right by exact H. ring.
Qed.

(** The ripple of part_000 is nil from distance 0.7 on. *)
Lemma ripple000_far (m : R) : 0.7 <= m -> smoothstep 0.7 0 m = 0.
Proof.
  intros H; apply smoothstep_below.
  assert (Hi : / (0 - 0.7) < 0) by (apply Rinv_lt_0_compat; lra).
  unfold Rdiv; nra.
Qed.

Lemma le_sqrt (a b : R) : 0 <= a -> a * a <= b -> a <= sqrt b.
Proof.
  intros Ha Hb.
  rewrite <- (sqrt_square a) by exact Ha.
  apply sqrt_le_1_alt; exact Hb.
Qed.

Lemma Int_part_IZR (m : Z) : Int_part (IZR m) = m.
Proof. symmetry; apply Int_part_spec; lra. Qed.

Lemma floor_IZR (m : Z) : floor (IZR m) = IZR m.
Proof. unfold floor; now rewrite Int_part_IZR. Qed.

Lemma fract_IZR (m : Z) : fract (IZR m) = 0.
Proof. unfold fract; rewrite floor_IZR; ring. Qed.

(** On the unit square the centre is less than 1 away. *)
Lemma centre_distance (p : vec2) :
  unit (vx p) -> unit (vy p) -> length (vsubs p 0.5) < 1.
Proof.
  unfold unit, length, dot, vsubs; cbn [vx vy]; intros [Hx0 Hx1] [Hy0 Hy1].
  apply Rle_lt_trans with (sqrt 0.5).
  - apply sqrt_le_1_alt; nra.
  - apply Rlt_le_trans with (sqrt 1);
      [apply sqrt_lt_1; lra | rewrite sqrt_1; lra].
Qed.

Lemma vignette_positive (p : vec2) :
  unit (vx p) -> unit (vy p) -> 0 < smoothstep 1 0.2 (length (vsubs p 0.5)).
Proof.
  intros Hx Hy; pose proof (centre_distance p Hx Hy) as Hd.
  apply smoothstep_pos.
  assert (Hi : / (0.2 - 1) < 0) by (apply Rinv_lt_0_compat; lra).
  unfold Rdiv; nra.
Qed.

(** A channel of part_000 before the vignette is at least 0.015. *)
Lemma colour000_channel_floor (k b g y s a P : R) :
  0.02 <= k <= b -> 0.4 <= g ->
  unit y -> -1 <= s <= 1 -> unit a -> a * a <= P <= 1 ->
  0.015 <= mix k b y + s * 0.02 * (0.2 + a * 1.2) + g * P * 0.4.
Proof.
  unfold unit, mix.
  intros [Hk0 Hk1] Hg [Hy0 Hy1] [Hs0 Hs1] [Ha0 Ha1] [HP0 HP1].
  assert (Hsp : - (0.2 + a * 1.2) <= s * (0.2 + a * 1.2)) by nra.
  assert (Hm : k <= k * (1 - y) + b * y) by nra.
  assert (Haa : 0 <= a * a) by nra.
  assert (HgP : 0.4 * (a * a) <= g * P) by nra.
  pose proof (Rle_0_sqr (a - 0.075)) as Hsq; unfold Rsqr in Hsq.
  nra.
Qed.

(** The height of part_001 (vertex [main], lines 39-49) lies between 0
    and 0.8 = 0.4 + 0.4, whatever the inputs. *)
Theorem height001_bounded (uv : vec2) (time : R) (pointer : vec2) :
  0 <= Shader001.height uv time pointer <= 0.8.
Proof.
  unfold Shader001.height.
  match goal with
  | |- _ <= noise ?q * _ + smoothstep ?e0 ?e1 ?m * _ <= _ =>
      pose proof (noise_range q) as Hn;
      pose proof (smoothstep_range e0 e1 m) as Hs;
      generalize dependent (noise q); generalize dependent (smoothstep e0 e1 m)
  end.
  intros s Hs n Hn; split; nra.
Qed.

(** The vertex shaders move a vertex sideways by at most 0.03 (part_000,
    on x only) and 0.04 (part_001, on x and y), and raise it along z by
    exactly the height. *)
Theorem wobble_bounded (e0 : Shader000.VertexIn) (e1 : Vertex001.VertexIn) :
  (-0.03 <= cx (Shader000.displaced e0) - cx (Shader000.position e0) <= 0.03 /\
   cy (Shader000.displaced e0) = cy (Shader000.position e0) /\
   cz (Shader000.displaced e0)
     = cz (Shader000.position e0)
       + Shader000.height (Shader000.uv e0) (Shader000.uTime e0)
           (Shader000.uMouse e0) (Shader000.uAudio e0)) /\
  (-0.04 <= cx (Vertex001.displaced e1) - cx (Vertex001.position e1) <= 0.04 /\
   -0.04 <= cy (Vertex001.displaced e1) - cy (Vertex001.position e1) <= 0.04 /\
   cz (Vertex001.displaced e1)
     = cz (Vertex001.position e1)
       + Shader001.height (Vertex001.uv e1) (Vertex001.uTime e1)
           (Vertex001.uMouse e1)).
Proof.
  split.
  - unfold Shader000.displaced; cbn [cx cy cz].
    match goal with
    | |- context [noise ?q - 0.5] => pose proof (noise_range q) as Hn
    end.
    repeat split; try reflexivity; lra.
  - unfold Vertex001.displaced; cbn [cx cy cz].
    pose proof (noise_range
                  (vadds (vscale (Vertex001.uv e1) 4) (Vertex001.uTime e1 * 0.3)))
      as Hn1.
    pose proof (noise_range
                  (vsubs (vscale (Vertex001.uv e1) 4) (Vertex001.uTime e1 * 0.3)))
      as Hn2.
    repeat split; try reflexivity; lra.
Qed.

(** The pointer acts near itself only: two pointer positions that are
    both 0.7 or more away from a vertex (in uv) give that vertex the same
    height, which is then at most the amplitude [0.2 + audio * 0.9]. *)
Theorem ripple_is_local (uv : vec2) (time : R) (m1 m2 : vec2) (audio : R) :
  0.7 <= length (vsub uv (vadds (vscale m1 0.5) 0.5)) ->
  0.7 <= length (vsub uv (vadds (vscale m2 0.5) 0.5)) ->
  Shader000.height uv time m1 audio = Shader000.height uv time m2 audio /\
  (0 <= audio -> Shader000.height uv time m1 audio <= 0.2 + audio * 0.9).
Proof.
  intros H1 H2; unfold Shader000.height.
  rewrite (ripple000_far _ H1), (ripple000_far _ H2).
  split; [reflexivity|].
  intros Ha.
  match goal with
  | |- noise ?q * _ + _ <= _ => pose proof (noise_range q) as Hn;
                                 generalize dependent (noise q)
  end.
  intros n Hn; nra.
Qed.

(** The theorem above at the corner uv = (0,0) with the pointer at the
    opposite corner and at the middle of the right edge. *)
Lemma ripple_is_local_witness :
  0.7 <= length (vsub (mkvec2 0 0) (vadds (vscale (mkvec2 1 1) 0.5) 0.5)) /\
  0.7 <= length (vsub (mkvec2 0 0) (vadds (vscale (mkvec2 1 0) 0.5) 0.5)) /\
  Shader000.height (mkvec2 0 0) 0 (mkvec2 1 1) 1
    = Shader000.height (mkvec2 0 0) 0 (mkvec2 1 0) 1.
Proof.
  assert (H1 : 0.7 <= length (vsub (mkvec2 0 0)
                                   (vadds (vscale (mkvec2 1 1) 0.5) 0.5))).
  { apply le_sqrt; [lra|]. unfold dot, vsub, vadds, vscale; cbn [vx vy]. lra. }
  assert (H2 : 0.7 <= length (vsub (mkvec2 0 0)
                                   (vadds (vscale (mkvec2 1 0) 0.5) 0.5))).
  { apply le_sqrt; [lra|]. unfold dot, vsub, vadds, vscale; cbn [vx vy]. lra. }
  split; [exact H1|]. split; [exact H2|].
  exact (proj1 (ripple_is_local (mkvec2 0 0) 0 (mkvec2 1 1) (mkvec2 1 0) 1 H1 H2)).
Defined.

(** Louder audio never lowers a vertex: between two audio levels the
    height rises, by at most 1.15 times their difference. *)
Theorem height_rises_with_audio (uv : vec2) (time : R) (pointer : vec2)
  (a1 a2 : R) :
  a1 <= a2 ->
  0 <= Shader000.height uv time pointer a2 - Shader000.height uv time pointer a1
    <= (a2 - a1) * 1.15.
Proof.
  intros Ha; unfold Shader000.height.
  match goal with
  | |- _ <= noise ?q * _ + smoothstep ?e0 ?e1 ?m * _ * _ - _ <= _ =>
      pose proof (noise_range q) as Hn;
      pose proof (smoothstep_range e0 e1 m) as Hs;
      generalize dependent (noise q); generalize dependent (smoothstep e0 e1 m)
  end.
  intros s Hs n Hn; split; nra.
Qed.

(** The theorem above from silence to full volume. *)
Lemma height_rises_with_audio_witness :
  0 <= 1 /\
  Shader000.height (mkvec2 0 0) 0 (mkvec2 0 0) 0
    <= Shader000.height (mkvec2 0 0) 0 (mkvec2 0 0) 1.
Proof.
  assert (H : 0 <= 1) by lra.
  split; [exact H|].
  pose proof (proj1 (height_rises_with_audio (mkvec2 0 0) 0 (mkvec2 0 0) 0 1 H)).
  lra.
Defined.

(** No pixel of the surface of part_000 is black: for uv in the unit
    square and audio in [0,1], at any time, every colour channel is
    strictly positive. *)
Theorem surface_never_black (vUv : vec2) (time audio : R) :
  unit (vx vUv) -> unit (vy vUv) -> unit audio ->
  0 < wx (Shader000.fragment vUv time audio) /\
  0 < wy (Shader000.fragment vUv time audio) /\
  0 < wz (Shader000.fragment vUv time audio).
Proof.
  intros Hx Hy Ha.
  pose proof (pow_15_bounds audio Ha) as HP.
  pose proof (vignette_positive vUv Hx Hy) as Hv.
  pose proof (SIN_bound (time * 0.2 + vx vUv * 6)) as Hs.
  unfold Shader000.fragment; cbv zeta.
  cbn [wx wy wz ww cx cy cz scale3 add3 adds3 mix3].
  repeat split; (apply Rmult_lt_0_compat; [|exact Hv]);
    (apply Rlt_le_trans with 0.015; [lra|]);
    apply colour000_channel_floor; try assumption; lra.
Qed.

(** The theorem above at the corner (0,0), at time 0, in silence. *)
Lemma surface_never_black_witness :
  unit (vx (mkvec2 0 0)) /\ unit (vy (mkvec2 0 0)) /\ unit 0 /\
  0 < wz (Shader000.fragment (mkvec2 0 0) 0 0).
Proof.
  assert (Hx : unit (vx (mkvec2 0 0))) by (unfold unit; cbn; lra).
  assert (Hy : unit (vy (mkvec2 0 0))) by (unfold unit; cbn; lra).
  assert (Ha : unit 0) by (unfold unit; lra).
  split; [exact Hx|]. split; [exact Hy|]. split; [exact Ha|].
  exact (proj2 (proj2 (surface_never_black (mkvec2 0 0) 0 0 Hx Hy Ha))).
Defined.

(** The value noise interpolates the lattice: at a point with integer
    coordinates it is the hash of that point. *)
Theorem noise_at_lattice (m n : Z) :
  noise (mkvec2 (IZR m) (IZR n)) = hash (mkvec2 (IZR m) (IZR n)).
Proof.
  unfold noise, weights, vfloor, vfract, vmul, ssubv, vscale, vadd.
  cbn [vx vy]. rewrite !floor_IZR, !fract_IZR.
  unfold mix; ring.
Qed.

End SurfaceShape.

(** * Further properties of the extractor and the smoother *)

Section BassWindow.

Import Js Audio.
Local Open Scope Q_scope.

Lemma sum_loop_agree (n : nat) :
  forall (a b : Uint8Array) (i : nat) (s : num),
    (forall j, (i <= j < i + n)%nat -> nth_error a j = nth_error b j) ->
    sum_loop a i n s = sum_loop b i n s.
Proof.
  induction n as [|n IH]; intros a b i s H; simpl; [reflexivity|].
  unfold get; rewrite (H i) by lia.
  apply IH; intros j Hj; apply H; lia.
Qed.

Lemma firstn_agree {A : Type} (c : nat) (a b : list A) (j : nat) :
  firstn c a = firstn c b -> (j < c)%nat -> nth_error a j = nth_error b j.
Proof.
  intros H Hj.
  pose proof (nth_error_firstn c a j) as Ha.
  pose proof (nth_error_firstn c b j) as Hb.
  apply Nat.ltb_lt in Hj; rewrite Hj in Ha, Hb.
  now rewrite <- Ha, <- Hb, H.
Qed.

(** Only the bass window counts: two snapshots of one length that agree
    on their first [cutoff] bins have the same average, whatever the
    bins above hold; of the 256 bins of the analyser the window is the
    first 51. *)
Theorem average_ignores_treble (a b : Uint8Array) :
  length a = length b ->
  firstn (Z.to_nat (cutoff (length a))) a
    = firstn (Z.to_nat (cutoff (length a))) b ->
  average a = average b /\ cutoff App000.frequencyBinCount = 51%Z.
Proof.
  intros Hlen Hfst; split; [|reflexivity].
  unfold average; rewrite <- Hlen.
  rewrite (sum_loop_agree _ a b 0 (Num 0)); [reflexivity|].
  intros j Hj; apply firstn_agree with (Z.to_nat (cutoff (length a)));
    [exact Hfst | lia].
Qed.

(** The theorem above at two snapshots of five bins that differ in the
    last one. *)
Lemma average_ignores_treble_witness :
  length [255; 255; 255; 255; 255]%Z = length [255; 255; 255; 255; 0]%Z /\
  average [255; 255; 255; 255; 255]%Z = average [255; 255; 255; 255; 0]%Z.
Proof.
  assert (H1 : length [255; 255; 255; 255; 255]%Z
               = length [255; 255; 255; 255; 0]%Z) by reflexivity.
  split; [exact H1|].
  apply (average_ignores_treble [255; 255; 255; 255; 255]%Z
           [255; 255; 255; 255; 0]%Z H1).
  reflexivity.
Defined.

Lemma sum_firstn_le (n : nat) :
  forall a b : Uint8Array,
    Forall2 Z.le a b ->
    (fold_right Z.add 0 (firstn n a) <= fold_right Z.add 0 (firstn n b))%Z.
Proof.
  induction n as [|n IH]; intros a b H; [simpl; lia|].
  destruct H as [|x y a b Hxy H]; [simpl; lia|].
  cbn [firstn fold_right]. specialize (IH _ _ H). lia.
Qed.

(** The average is monotone: raising bins never lowers it. *)
Theorem average_monotone (a b : Uint8Array) :
  (4 <= length a)%nat -> Forall2 Z.le a b ->
  exists qa qb : Q,
    average a = Num qa /\ average b = Num qb /\ qa <= qb.
Proof.
  intros Hlen H.
  pose proof (Forall2_length H) as Hl.
  destruct (average_bass_mean a Hlen) as [qa [Ha Hqa]].
  destruct (average_bass_mean b) as [qb [Hb Hqb]]; [lia|].
  exists qa, qb; split; [exact Ha|]. split; [exact Hb|].
  rewrite Hqa, Hqb; unfold bass_mean; rewrite <- Hl.
  set (c := cutoff (length a)).
  pose proof (cutoff_ge_4 (length a)) as Hc; fold c in Hc.
  pose proof (sum_firstn_le (Z.to_nat c) a b H) as Hs.
  assert (Hcq : 0 < inject_Z c).
  { change 0 with (inject_Z 0); rewrite <- Zlt_Qlt; lia. }
  rewrite Zle_Qle in Hs.
  generalize dependent (inject_Z (fold_right Z.add 0%Z (firstn (Z.to_nat c) a))).
  generalize dependent (inject_Z (fold_right Z.add 0%Z (firstn (Z.to_nat c) b))).
  generalize dependent (inject_Z c).
  intros cq Hcq sb sa Hs.
  apply Qmult_le_compat_r; [|discriminate].
  apply Qmult_le_compat_r; [exact Hs|].
  apply Qinv_le_0_compat; lra.
Qed.

(** The theorem above at a silent snapshot and a louder one. *)
Lemma average_monotone_witness :
  (4 <= length [0; 0; 0; 0]%Z)%nat /\ Forall2 Z.le [0; 0; 0; 0]%Z [1; 2; 3; 4]%Z /\
  exists qa qb : Q,
    average [0; 0; 0; 0]%Z = Num qa /\ average [1; 2; 3; 4]%Z = Num qb /\
    qa <= qb.
Proof.
  assert (H1 : (4 <= length [0; 0; 0; 0]%Z)%nat) by (simpl; lia).
  assert (H2 : Forall2 Z.le [0; 0; 0; 0]%Z [1; 2; 3; 4]%Z).
  { repeat constructor; lia. }
  split; [exact H1|]. split; [exact H2|].
  exact (average_monotone _ _ H1 H2).
Defined.

End BassWindow.

Section SmootherRange.

Import Three Pointer.
Local Open Scope Q_scope.

Lemma lerp_in_ndc (a b : Vector2) (alpha : Q) :
  0 <= alpha <= 1 -> in_ndc a -> in_ndc b -> in_ndc (lerp a b alpha).
Proof.
  unfold in_ndc, lerp; cbn [x y].
  intros [H0 H1] [[Ha1 Ha2] [Ha3 Ha4]] [[Hb1 Hb2] [Hb3 Hb4]].
  repeat split; nra.
Qed.

Lemma onPointer_on_canvas (rect : DOMRect) (e : PointerEvent) (m : Vector2) :
  0 < width rect -> 0 < height rect ->
  left rect <= clientX e <= left rect + width rect ->
  top rect <= clientY e <= top rect + height rect ->
  in_ndc (onPointer rect e m).
Proof.
  intros Hw Hh Hx Hy; unfold onPointer, set, in_ndc; cbn [x y].
  set (dx := clientX e - left rect).
  set (dy := clientY e - top rect).
  assert (Ex : dx / width rect * width rect == dx) by (field; lra).
  assert (Ey : dy / height rect * height rect == dy) by (field; lra).
  assert (Hdx : 0 <= dx <= width rect) by (unfold dx; lra).
  assert (Hdy : 0 <= dy <= height rect) by (unfold dy; lra).
  set (qx := dx / width rect) in *.
  set (qy := dy / height rect) in *.
  repeat split; nra.
Qed.

(** The smoothed pointer never leaves the square [-1,1]^2: from a
    position inside it, any number of steps towards a target inside it
    stay inside, for every rate in [0,1]. *)
Theorem smoother_stays_in_ndc (r : Q) (k : nat) :
  forall c0 p : Vector2,
    0 <= r <= 1 -> in_ndc c0 -> in_ndc p ->
    in_ndc (current (steps r k (mkSmoother c0 p))).
Proof.
  induction k as [|k IH]; intros c0 p Hr Hc Hp; cbn [steps].
  - exact Hc.
  - unfold step; cbn [current target].
    apply IH; [exact Hr | | exact Hp].
    now apply lerp_in_ndc.
Qed.

(** The theorem above at the rate of part_000, from the origin towards
    the corner (1,-1). *)
Lemma smoother_stays_in_ndc_witness :
  0 <= rate_000 <= 1 /\ in_ndc (mkVector2 0 0) /\ in_ndc (mkVector2 1 (-1)) /\
  in_ndc (current (steps rate_000 5
                     (mkSmoother (mkVector2 0 0) (mkVector2 1 (-1))))).
Proof.
  assert (Hr : 0 <= rate_000 <= 1) by (unfold rate_000; split; discriminate).
  assert (Hc : in_ndc (mkVector2 0 0)) by (cbn; repeat split; discriminate).
  assert (Hp : in_ndc (mkVector2 1 (-1))) by (cbn; repeat split; discriminate).
  split; [exact Hr|]. split; [exact Hc|]. split; [exact Hp|].
  exact (smoother_stays_in_ndc rate_000 5 _ _ Hr Hc Hp).
Defined.

(** The pointer handler of part_001 on an event on the canvas: the
    sample it stores lies in [-1,1]^2, the smoothed pointer moves a
    fifth of the way to it on each axis, and stays in [-1,1]^2 if it
    was there. *)
Theorem onPointerMove001_step (rect : DOMRect) (e : PointerEvent)
  (s : Smoother) :
  0 < width rect -> 0 < height rect ->
  left rect <= clientX e <= left rect + width rect ->
  top rect <= clientY e <= top rect + height rect ->
  in_ndc (current s) ->
  in_ndc (target (onPointerMove_001 rect e s)) /\
  in_ndc (current (onPointerMove_001 rect e s)) /\
  x (current (onPointerMove_001 rect e s)) - x (current s)
    == (x (target (onPointerMove_001 rect e s)) - x (current s)) * (1 # 5) /\
  y (current (onPointerMove_001 rect e s)) - y (current s)
    == (y (target (onPointerMove_001 rect e s)) - y (current s)) * (1 # 5).
Proof.
  intros Hw Hh Hx Hy Hc.
  pose proof (onPointer_on_canvas rect e (target s) Hw Hh Hx Hy) as Ht.
  unfold onPointerMove_001, step; cbn [current target].
  split; [exact Ht|].
  split; [apply lerp_in_ndc; [unfold rate_001; split; discriminate | exact Hc | exact Ht]|].
  unfold lerp, rate_001; cbn [x y]; split; ring.
Qed.

(** The theorem above at an event in the top right quarter of a 100 x
    100 canvas. *)
Lemma onPointerMove001_step_witness :
  0 < width (mkRect 0 0 100 100) /\ 0 < height (mkRect 0 0 100 100) /\
  left (mkRect 0 0 100 100) <= clientX (mkEvent 75 25)
    <= left (mkRect 0 0 100 100) + width (mkRect 0 0 100 100) /\
  top (mkRect 0 0 100 100) <= clientY (mkEvent 75 25)
    <= top (mkRect 0 0 100 100) + height (mkRect 0 0 100 100) /\
  in_ndc (current (mkSmoother (mkVector2 0 0) (mkVector2 0 0))) /\
  in_ndc (current (onPointerMove_001 (mkRect 0 0 100 100) (mkEvent 75 25)
                     (mkSmoother (mkVector2 0 0) (mkVector2 0 0)))).
Proof.
  assert (Hw : 0 < width (mkRect 0 0 100 100)) by reflexivity.
  assert (Hh : 0 < height (mkRect 0 0 100 100)) by reflexivity.
  assert (Hx : left (mkRect 0 0 100 100) <= clientX (mkEvent 75 25)
               <= left (mkRect 0 0 100 100) + width (mkRect 0 0 100 100)).
  { cbn; split; discriminate. }
  assert (Hy : top (mkRect 0 0 100 100) <= clientY (mkEvent 75 25)
               <= top (mkRect 0 0 100 100) + height (mkRect 0 0 100 100)).
  { cbn; split; discriminate. }
  assert (Hc : in_ndc (current (mkSmoother (mkVector2 0 0) (mkVector2 0 0)))).
  { cbn; repeat split; discriminate. }
  split; [exact Hw|]. split; [exact Hh|]. split; [exact Hx|].
  split; [exact Hy|]. split; [exact Hc|].
  exact (proj1 (proj2 (onPointerMove001_step _ _ _ Hw Hh Hx Hy Hc))).
Defined.

Lemma div_le_pos (a b c : Q) : 0 < c -> a <= b -> a / c <= b / c.
Proof.
  intros Hc Hab; unfold Qdiv.
  apply Qmult_le_compat_r; [exact Hab|].
  apply Qinv_le_0_compat; lra.
Qed.

(** The orientation of the pointer sample, for a canvas of positive
    size: an event further right gives a larger x, an event further down
    a smaller y; the top left corner of the canvas gives (-1, 1) and the
    bottom right corner (1, -1). *)
Theorem onPointer_orientation (rect : DOMRect) (e1 e2 : PointerEvent)
  (m : Vector2) :
  0 < width rect -> 0 < height rect ->
  (clientX e1 <= clientX e2 ->
   x (onPointer rect e1 m) <= x (onPointer rect e2 m)) /\
  (clientY e1 <= clientY e2 ->
   y (onPointer rect e2 m) <= y (onPointer rect e1 m)) /\
  veq (onPointer rect (mkEvent (left rect) (top rect)) m) (mkVector2 (-1) 1) /\
  veq (onPointer rect
         (mkEvent (left rect + width rect) (top rect + height rect)) m)
      (mkVector2 1 (-1)).
Proof.
  intros Hw Hh; unfold onPointer, set, veq; cbn [x y clientX clientY].
  split.
  { intros H.
    assert (Hd : (clientX e1 - left rect) / width rect
                 <= (clientX e2 - left rect) / width rect)
      by (apply div_le_pos; lra).
    lra. }
  split.
  { intros H.
    assert (Hd : (clientY e1 - top rect) / height rect
                 <= (clientY e2 - top rect) / height rect)
      by (apply div_le_pos; lra).
    lra. }
  split; split; field; lra.
Qed.

(** The theorem above on a 100 x 100 canvas. *)
Lemma onPointer_orientation_witness :
  0 < width (mkRect 0 0 100 100) /\ 0 < height (mkRect 0 0 100 100) /\
  veq (onPointer (mkRect 0 0 100 100)
         (mkEvent (left (mkRect 0 0 100 100)) (top (mkRect 0 0 100 100)))
         (mkVector2 0 0))
      (mkVector2 (-1) 1).
Proof.
  assert (Hw : 0 < width (mkRect 0 0 100 100)) by reflexivity.
  assert (Hh : 0 < height (mkRect 0 0 100 100)) by reflexivity.
  split; [exact Hw|]. split; [exact Hh|].
  exact (proj1 (proj2 (proj2
           (onPointer_orientation (mkRect 0 0 100 100) (mkEvent 0 0)
              (mkEvent 0 0) (mkVector2 0 0) Hw Hh)))).
Defined.

End SmootherRange.

(** * Further properties of the audio-reactive component *)

Section Reachable.

Import Js Three Browser App000 Reach.
Local Open Scope Q_scope.

(** The mounted session after a tick. *)
Lemma animate_tick (i : nat) (h : HostInput) (w : World) (s : Session) :
  nth_error (sessions w) i = Some s ->
  uniformsRef w = Some i ->
  nth_error (sessions (animate i h w)) i
    = Some (tick_session h (mouseRef w) (analyserRef w) (dataArrayRef w)
              (S (last (raf w))) s).
Proof.
  intros Hs Hur; unfold animate, tick_session; rewrite Hs.
  unfold request; destruct (getElapsedTime (now h) (clock s)) as [c t].
  unfold uniforms_block, audio_block, modify_session.
  destruct w as [vol pl mr ur an da ae r ch ss ef tk].
  cbn [uniformsRef sessions] in Hur, Hs; subst ur.
  destruct an, da as [arr|];
    cbn [volume isPlaying mouseRef uniformsRef analyserRef dataArrayRef
         audioElRef raf children sessions effect ticks set_raf set_sessions
         set_analyser count_tick fst];
    rewrite !nth_error_modify_same, Hs; reflexivity.
Qed.

(** The snapshot array after a tick. *)
Lemma animate_data (i j : nat) (h : HostInput) (w : World) (s : Session) :
  nth_error (sessions w) i = Some s ->
  uniformsRef w = Some j ->
  dataArrayRef (animate i h w)
    = match analyserRef w, dataArrayRef w with
      | true, Some array => Some (getByteFrequencyData array (freq h))
      | _, _ => dataArrayRef w
      end.
Proof.
  intros Hs Hur; unfold animate; rewrite Hs.
  unfold request; destruct (getElapsedTime (now h) (clock s)) as [c t].
  unfold uniforms_block, audio_block, modify_session.
  destruct w as [vol pl mr ur an da ae r ch ss ef tk].
  cbn [uniformsRef] in Hur; subst ur.
  destruct an, da as [arr|]; reflexivity.
Qed.

Lemma tick_session_flags (h : HostInput) (mouse : Vector2) (an : bool)
  (da : option Audio.Uint8Array) (id : nat) (s : Session) :
  observing (tick_session h mouse an da id s) = observing s /\
  listening (tick_session h mouse an da id s) = listening s /\
  disposed (tick_session h mouse an da id s) = disposed s /\
  rafId (tick_session h mouse an da id s) = Some id /\
  frames (tick_session h mouse an da id s) = S (frames s).
Proof.
  unfold tick_session.
  destruct (getElapsedTime (now h) (clock s)) as [c t].
  destruct an, da as [arr|]; cbn; repeat split.
Qed.

Lemma tick_session_clock (h : HostInput) (mouse : Vector2) (an : bool)
  (da : option Audio.Uint8Array) (id : nat) (s : Session) :
  clock (tick_session h mouse an da id s)
    = fst (getElapsedTime (now h) (clock s)) /\
  uTime (uniforms (tick_session h mouse an da id s))
    = snd (getElapsedTime (now h) (clock s)) /\
  uMouse (uniforms (tick_session h mouse an da id s))
    = lerp (uMouse (uniforms s)) mouse (8 # 100).
Proof.
  unfold tick_session.
  destruct (getElapsedTime (now h) (clock s)) as [c t].
  destruct an, da as [arr|]; cbn; repeat split.
Qed.

Lemma getElapsedTime_running (now : Q) (c : Clock) :
  running (fst (getElapsedTime now c)) = true /\
  oldTime (fst (getElapsedTime now c)) = now /\
  elapsedTime (fst (getElapsedTime now c)) = snd (getElapsedTime now c).
Proof.
  unfold getElapsedTime; destruct (running c); cbn; repeat split.
Qed.

Lemma well_formed_firstn_skipn (n m : nat) (a b : Audio.Uint8Array) :
  Audio.well_formed a -> Audio.well_formed b ->
  Audio.well_formed (firstn n b ++ skipn m a).
Proof.
  unfold Audio.well_formed; intros Ha Hb.
  apply Forall_app; split.
  - now apply well_formed_firstn.
  - clear Hb; revert m; induction Ha as [|v l Hv _ IH]; intros [|m]; simpl;
      try constructor; auto.
    induction l; [constructor|]. apply IH with (m := 0%nat).
Qed.

(** The average of a full array of bytes and the cube scale made of
    it. *)
Lemma average_levels (a : Audio.Uint8Array) :
  Audio.well_formed a -> (4 <= length a)%nat ->
  in_unit (Audio.average a) /\
  scale_ok (add (Num 1) (mul (Audio.average a) (Num (14 # 10)))).
Proof.
  intros Hwf Hlen.
  destruct (average_bass_mean a Hlen) as [q [Hq Hm]].
  pose proof (bass_mean_unit a Hwf Hlen) as Hu.
  rewrite <- Hm in Hu; rewrite Hq; cbn [in_unit add mul scale_ok].
  split; [exact Hu|]. split; lra.
Qed.

Lemma tick_session_levels (h : HostInput) (mouse : Vector2) (an : bool)
  (da : option Audio.Uint8Array) (id : nat) (s : Session) :
  levels_ok s -> host_ok h ->
  (forall a, da = Some a ->
     length a = frequencyBinCount /\ Audio.well_formed a) ->
  levels_ok (tick_session h mouse an da id s).
Proof.
  intros Hl Hh Hda; unfold tick_session, levels_ok.
  destruct (getElapsedTime (now h) (clock s)) as [c t].
  destruct an, da as [arr|]; cbn; try exact Hl.
  destruct (Hda arr eq_refl) as [Hlen Hwf].
  apply average_levels.
  - unfold getByteFrequencyData. now apply well_formed_firstn_skipn.
  - rewrite getByteFrequencyData_length, Hlen; unfold frequencyBinCount; lia.
Qed.

(** Close a goal [controls_ok] once the refs of the world are known. *)
Ltac controls_goal :=
  repeat match goal with
         | H : _ /\ _ |- _ => destruct H
         end;
  repeat split; intros;
  repeat match goal with
         | H : ?a = true -> _ /\ _, H' : ?a = true |- _ =>
             destruct (H H'); clear H
         | H : true = true -> _ /\ _ |- _ => destruct (H eq_refl); clear H
         end;
  repeat split;
  first [ assumption | reflexivity | discriminate
        | eexists; reflexivity | solve [auto] ].

Lemma sound_ext (w w' : World) :
  effect w' = effect w -> uniformsRef w' = uniformsRef w ->
  sessions w' = sessions w -> raf w' = raf w -> children w' = children w ->
  controls_ok w' ->
  sound w -> sound w'.
Proof.
  unfold sound, rest_ok; intros -> -> -> -> -> Hc [Hm [Hall _]].
  split; [exact Hm|]. split; assumption.
Qed.

(** A tick of a component that is ready leaves it sound. *)
Lemma animate_sound (i : nat) (h : HostInput) (w : World) :
  ready i w -> sound (animate i h w).
Proof.
  intros (Hur & Hef & (s & Hs & Hlive) & Hp & Hch & (Hall & Hctl)).
  destruct (animate_frame i h w s Hs) as (V & P & M & U & A & AE & CH & E & T & R & RM).
  pose proof (animate_tick i h w s Hs Hur) as Ht.
  set (s' := tick_session h (mouseRef w) (analyserRef w) (dataArrayRef w)
               (S (last (raf w))) s) in *.
  destruct (tick_session_flags h (mouseRef w) (analyserRef w) (dataArrayRef w)
              (S (last (raf w))) s) as (F1 & F2 & F3 & F4 & _).
  destruct (tick_session_clock h (mouseRef w) (analyserRef w) (dataArrayRef w)
              (S (last (raf w))) s) as (C1 & C2 & _).
  destruct (getElapsedTime_running (now h) (clock s)) as (G1 & _ & G3).
  fold s' in F1, F2, F3, F4, C1, C2.
  split.
  - exists i, (S (last (raf w))), s'.
    split; [now rewrite E|]. split; [now rewrite U|]. split; [exact Ht|].
    split; [exact F4|].
    split; [rewrite R; unfold request; cbn [fst pending]; now rewrite Hp|].
    split; [now rewrite CH|].
    split; [unfold live in *; rewrite F1, F2, F3; exact Hlive|].
    split; [now rewrite C1|].
    now rewrite C1, C2.
  - split.
    + intros k sk Hk Hne.
      rewrite E in Hne.
      assert (k <> i) by congruence.
      rewrite animate_other in Hk by assumption.
      now apply Hall with k.
    + pose proof (animate_data i i h w s Hs Hur) as D.
      unfold controls_ok in *; rewrite V, A, AE, P, D.
      destruct Hctl as (Hv & Hpl & Han).
      split; [exact Hv|]. split; [exact Hpl|].
      intros Ha; destruct (Han Ha) as [Hel [a Harr]].
      split; [exact Hel|]. rewrite Ha, Harr; eexists; reflexivity.
Qed.

(** A tick keeps the levels in range when the analyser hands out bytes. *)
Lemma animate_levels (i : nat) (h : HostInput) (w : World) :
  ready i w -> levels w -> host_ok h -> levels (animate i h w).
Proof.
  intros (Hur & Hef & (s & Hs & Hlive) & _) [Hall Hsnap] Hh.
  pose proof (animate_tick i h w s Hs Hur) as Ht.
  pose proof (animate_data i i h w s Hs Hur) as Hd.
  split.
  - intros k sk Hk.
    destruct (Nat.eq_dec k i) as [->|Hne].
    + rewrite Ht in Hk; injection Hk as <-.
      apply tick_session_levels; [exact (Hall i s Hs) | exact Hh |].
      intros a Ha; unfold snapshot_wf in Hsnap; now rewrite Ha in Hsnap.
    + rewrite animate_other in Hk by assumption. now apply Hall with k.
  - unfold snapshot_wf in *; rewrite Hd.
    destruct (analyserRef w), (dataArrayRef w) as [arr|]; try exact Hsnap.
    destruct Hsnap as [Hlen Hwf]; split.
    + now rewrite getByteFrequencyData_length.
    + unfold getByteFrequencyData. now apply well_formed_firstn_skipn.
Qed.

(** The cleanup, field by field. *)
Lemma cleanup_fields (i : nat) (w : World) (s : Session) :
  nth_error (sessions w) i = Some s ->
  sessions (fst (cleanup i w))
    = modify i dispose (modify i unsubscribe (sessions w)) /\
  raf (fst (cleanup i w))
    = match rafId s with
      | Some id => cancel id (raf w)
      | None => raf w
      end /\
  children (fst (cleanup i w))
    = match removeChild i (children w) with
      | Normal ch => ch
      | Throw _ => children w
      end.
Proof.
  intros Hs; unfold cleanup; rewrite Hs.
  destruct w as [vol pl mr ur an da ae r ch ss ef tk].
  unfold modify_session.
  destruct (rafId s) as [id|];
    cbn [raf children sessions set_raf set_sessions];
    match goal with |- context [removeChild ?n ?c] => destruct (removeChild n c) end;
    cbn [fst raf children sessions set_raf set_sessions set_children];
    repeat split.
Qed.

Lemma removeChild_only (i : nat) : removeChild i [i] = Normal [].
Proof.
  unfold removeChild; cbn [existsb filter].
  now rewrite Nat.eqb_refl.
Qed.

(** The cleanup of a sound component leaves it idle. *)
Lemma cleanup_idle (i : nat) (w : World) :
  sound w -> effect w = Some i -> idle (fst (cleanup i w)).
Proof.
  intros [(i' & id & s & He & Hur & Hs & Hid & Hp & Hch & Hlive & _) [Hall Hctl]] Hi.
  assert (i' = i) by congruence; subst i'.
  destruct (cleanup_fields i w s Hs) as (Hss & Hr & Hc).
  destruct (cleanup_frame i w) as (V & P & _ & _ & A & D & AE & _ & _ & _).
  split; [rewrite Hr, Hid; now apply cancel_only with i|].
  split; [rewrite Hc, Hch, removeChild_only; reflexivity|].
  split.
  - intros k sk Hk; rewrite Hss in Hk.
    destruct (Nat.eq_dec k i) as [->|Hne].
    + rewrite !nth_error_modify_same, Hs in Hk; cbn in Hk.
      injection Hk as <-. repeat split.
    + rewrite !nth_error_modify_other in Hk by auto.
      apply Hall with k; [exact Hk | congruence].
  - unfold controls_ok in *; now rewrite V, A, D, AE, P.
Qed.

Lemma cleanup_levels (i : nat) (w : World) :
  levels w -> levels (fst (cleanup i w)).
Proof.
  intros [Hall Hsnap].
  destruct (cleanup_frame i w) as (_ & _ & _ & _ & _ & D & _).
  split; [|unfold snapshot_wf in *; now rewrite D].
  intros k sk Hk.
  destruct (nth_error (sessions w) i) as [s|] eqn:Hs.
  - destruct (cleanup_fields i w s Hs) as (Hss & _ & _).
    rewrite Hss in Hk.
    destruct (Nat.eq_dec k i) as [->|Hne].
    + rewrite !nth_error_modify_same, Hs in Hk; cbn in Hk.
      injection Hk as <-. exact (Hall i s Hs).
    + rewrite !nth_error_modify_other in Hk by auto.
      now apply Hall with k.
  - unfold cleanup in Hk; rewrite Hs in Hk. now apply Hall with k.
Qed.

Lemma run_effect_ready (w : World) :
  idle w ->
  ready (length (sessions w))
    (set_effect (Some (length (sessions w)))
       (set_uniformsRef (Some (length (sessions w)))
          (set_children (children w ++ [length (sessions w)])
             (set_sessions (sessions w ++ [new_session]) w)))).
Proof.
  intros (Hp & Hch & Hall & Hctl).
  destruct w as [vol pl mr ur an da ae r ch ss ef tk].
  cbn [raf children sessions] in *; subst ch.
  unfold ready, rest_ok;
    cbn [volume isPlaying mouseRef uniformsRef analyserRef dataArrayRef
         audioElRef raf children sessions effect ticks set_effect
         set_uniformsRef set_children set_sessions app].
  split; [reflexivity|]. split; [reflexivity|].
  split.
  { exists new_session; split; [|repeat split].
    rewrite nth_error_app2, Nat.sub_diag by lia; reflexivity. }
  split; [exact Hp|]. split; [reflexivity|].
  split; [|exact Hctl].
  intros k sk Hk Hne.
  assert (Hlt : (k < length ss)%nat).
  { assert (k < length (ss ++ [new_session]))%nat
      by (apply nth_error_Some; congruence).
    rewrite length_app in H; cbn in H.
    assert (k <> length ss) by congruence. lia. }
  rewrite nth_error_app1 in Hk by exact Hlt.
  now apply Hall with k.
Qed.

(** The effect run on an idle component leaves it sound. *)
Lemma run_effect_sound (h : HostInput) (w : World) :
  idle w -> sound (run_effect h w).
Proof.
  intros Hi; unfold run_effect.
  apply animate_sound. exact (run_effect_ready w Hi).
Qed.

Lemma run_effect_levels (h : HostInput) (w : World) :
  idle w -> levels w -> host_ok h -> levels (run_effect h w).
Proof.
  intros Hi [Hall Hsnap] Hh; unfold run_effect.
  apply animate_levels; [exact (run_effect_ready w Hi) | | exact Hh].
  destruct w as [vol pl mr ur an da ae r ch ss ef tk].
  split; [|exact Hsnap].
  cbn [sessions set_effect set_uniformsRef set_children set_sessions] in *.
  intros k sk Hk.
  destruct (Nat.lt_ge_cases k (length ss)) as [Hlt|Hge].
  - rewrite nth_error_app1 in Hk by exact Hlt. now apply Hall with k.
  - rewrite nth_error_app2 in Hk by exact Hge.
    destruct (k - length ss)%nat as [|n]; cbn in Hk.
    + injection Hk as <-. cbn. repeat split; discriminate.
    + destruct n; discriminate.
Qed.

Lemma initial_idle : idle initial.
Proof.
  unfold idle, initial, controls_ok; cbn.
  split; [reflexivity|]. split; [reflexivity|].
  split; [intros [|k] s H; discriminate|].
  split; [split; discriminate|]. split; discriminate.
Qed.

Lemma initial_levels : levels initial.
Proof.
  split; [intros [|k] s H; discriminate | exact I].
Qed.

(** A frame of a sound component is one tick of the mounted session. *)
Lemma frame_tick (h : HostInput) (w : World) :
  sound w ->
  exists i id,
    effect w = Some i /\ pending (raf w) = [(id, i)] /\
    frame h w = animate i h (set_raf (cancel id (raf w)) w) /\
    ready i (set_raf (cancel id (raf w)) w).
Proof.
  intros [(i & id & s & He & Hur & Hs & Hid & Hp & Hch & Hlive & _) Hrest].
  exists i, id. split; [exact He|]. split; [exact Hp|].
  split.
  - unfold frame; rewrite Hp; cbn [run_callbacks].
    unfold is_pending; rewrite Hp; cbn [existsb fst].
    now rewrite Nat.eqb_refl.
  - unfold ready.
    split; [exact Hur|]. split; [exact He|].
    split; [exists s; split; assumption|].
    split; [apply cancel_only with i; exact Hp|].
    split; [exact Hch | exact Hrest].
Qed.

Lemma frame_sound (h : HostInput) (w : World) : sound w -> sound (frame h w).
Proof.
  intros Hw; destruct (frame_tick h w Hw) as (i & id & _ & _ & Hf & Hr).
  rewrite Hf; now apply animate_sound.
Qed.

Lemma frame_levels (h : HostInput) (w : World) :
  sound w -> levels w -> host_ok h -> levels (frame h w).
Proof.
  intros Hw Hl Hh; destruct (frame_tick h w Hw) as (i & id & _ & _ & Hf & Hr).
  rewrite Hf; apply animate_levels; [exact Hr | exact Hl | exact Hh].
Qed.

Lemma handleVolume_sound (v : Q) (h : HostInput) (w : World) :
  sound w -> sound (handleVolume v h w).
Proof.
  intros Hw; pose proof (clamp01_unit v) as Hu.
  unfold handleVolume.
  set (w2 := match audioElRef (set_volume (clamp01 v) w) with
             | Some el => _
             | None => _
             end).
  assert (H2 : sound w2).
  { apply sound_ext with w; try exact Hw;
      try (unfold w2; destruct w as [vol pl mr ur an da [el|] r ch ss ef tk];
           reflexivity).
    destruct Hw as [_ [_ Hctl]]; unfold controls_ok in *.
    unfold w2; destruct w as [vol pl mr ur an da [el|] r ch ss ef tk];
      cbn [volume isPlaying audioElRef analyserRef dataArrayRef set_volume
           set_audioElRef el_volume el_paused] in *; controls_goal. }
  destruct (negb (Qeq_bool (clamp01 v) (volume w))); [|exact H2].
  destruct (effect w2) as [i|] eqn:He; [|exact H2].
  apply run_effect_sound, cleanup_idle; assumption.
Qed.

Lemma handleVolume_levels (v : Q) (h : HostInput) (w : World) :
  sound w -> levels w -> host_ok h -> levels (handleVolume v h w).
Proof.
  intros Hw Hl Hh; pose proof (handleVolume_sound v h w Hw) as Hs.
  revert Hs; unfold handleVolume.
  set (w2 := match audioElRef (set_volume (clamp01 v) w) with
             | Some el => _
             | None => _
             end).
  assert (H2 : levels w2).
  { unfold w2; destruct w as [vol pl mr ur an da [el|] r ch ss ef tk];
      exact Hl. }
  assert (H2s : sound w2).
  { pose proof (clamp01_unit v) as Hu.
    apply sound_ext with w; try exact Hw;
      try (unfold w2; destruct w as [vol pl mr ur an da [el|] r ch ss ef tk];
           reflexivity).
    destruct Hw as [_ [_ Hctl]]; unfold controls_ok in *.
    unfold w2; destruct w as [vol pl mr ur an da [el|] r ch ss ef tk];
      cbn [volume isPlaying audioElRef analyserRef dataArrayRef set_volume
           set_audioElRef el_volume el_paused] in *; controls_goal. }
  intros _.
  destruct (negb (Qeq_bool (clamp01 v) (volume w))); [|exact H2].
  destruct (effect w2) as [i|] eqn:He; [|exact H2].
  apply run_effect_levels;
    [now apply cleanup_idle | now apply cleanup_levels | exact Hh].
Qed.

Lemma handlePlay_sound (ok : bool) (w : World) :
  sound w -> sound (handlePlay ok w).
Proof.
  intros Hw.
  apply sound_ext with w; try exact Hw;
    try (unfold handlePlay;
         destruct w as [vol pl mr ur [|] da [el|] r ch ss ef tk], ok;
         reflexivity).
  destruct Hw as [_ [_ Hctl]]; unfold controls_ok, handlePlay in *.
  destruct w as [vol pl mr ur [|] da [[ev ep]|] r ch ss ef tk], ok;
    cbn [volume isPlaying audioElRef analyserRef dataArrayRef set_isPlaying
         set_analyser set_audioElRef el_volume el_paused negb] in *;
    controls_goal.
Qed.

Lemma handlePlay_levels (ok : bool) (w : World) :
  levels w -> levels (handlePlay ok w).
Proof.
  intros [Hall Hsnap]; unfold handlePlay, levels, snapshot_wf in *.
  destruct w as [vol pl mr ur [|] da [el|] r ch ss ef tk], ok;
    cbn [sessions dataArrayRef analyserRef set_isPlaying set_analyser
         set_audioElRef] in *;
    (split; [exact Hall|]); try exact Hsnap;
    (split; [apply repeat_length |
             apply Forall_forall; intros x Hx; apply repeat_spec in Hx;
             subst x; unfold Audio.is_uint8; lia]).
Qed.

Lemma handlePause_sound (w : World) : sound w -> sound (handlePause w).
Proof.
  intros Hw.
  apply sound_ext with w; try exact Hw;
    try (unfold handlePause;
         destruct w as [vol pl mr ur an da [el|] r ch ss ef tk]; reflexivity).
  destruct Hw as [_ [_ Hctl]]; unfold controls_ok, handlePause in *.
  destruct w as [vol pl mr ur an da [[ev ep]|] r ch ss ef tk];
    cbn [volume isPlaying audioElRef analyserRef dataArrayRef set_isPlaying
         set_audioElRef el_volume el_paused negb] in *;
    controls_goal.
Qed.

(** The halves of [handlePlay] and the end of the track touch the audio
    refs and the playing flag only. *)
Lemma handlePlay_begin_sound (vl : Q) (st : bool) (w : World) :
  sound w -> sound (handlePlay_begin vl st w).
Proof.
  intros Hw.
  apply sound_ext with w; try exact Hw;
    try (unfold handlePlay_begin;
         destruct w as [vol pl mr ur an da [el|] r ch ss ef tk]; reflexivity).
  destruct Hw as [_ [_ Hctl]]; unfold controls_ok, handlePlay_begin in *.
  destruct w as [vol pl mr ur an da [[ev ep]|] r ch ss ef tk];
    cbn [volume isPlaying audioElRef analyserRef dataArrayRef
         set_audioElRef] in *;
    controls_goal.
Qed.

(** [handlePlay] run without interruption is its two halves in a row. *)
Lemma handlePlay_halves (ok : bool) (w : World) :
  handlePlay ok w = handlePlay_end ok (handlePlay_begin (volume w) ok w).
Proof.
  unfold handlePlay, handlePlay_begin, handlePlay_end.
  destruct w as [vol pl mr ur [|] da [[ev ep]|] r ch ss ef tk], ok;
    reflexivity.
Qed.

Lemma handlePlay_end_sound (ok : bool) (w : World) :
  sound w -> sound (handlePlay_end ok w).
Proof.
  intros Hw.
  apply sound_ext with w; try exact Hw;
    try (unfold handlePlay_end;
         destruct w as [vol pl mr ur [|] da [el|] r ch ss ef tk], ok;
         reflexivity).
  destruct Hw as [_ [_ Hctl]]; unfold controls_ok, handlePlay_end in *.
  destruct w as [vol pl mr ur [|] da [[ev ep]|] r ch ss ef tk], ok;
    cbn [volume isPlaying audioElRef analyserRef dataArrayRef set_isPlaying
         set_analyser set_audioElRef] in *;
    controls_goal.
Qed.

Lemma handlePlay_end_levels (ok : bool) (w : World) :
  levels w -> levels (handlePlay_end ok w).
Proof.
  intros [Hall Hsnap]; unfold handlePlay_end, levels, snapshot_wf in *.
  destruct w as [vol pl mr ur [|] da [el|] r ch ss ef tk], ok;
    cbn [sessions dataArrayRef analyserRef audioElRef set_isPlaying
         set_analyser set_audioElRef] in *;
    (split; [exact Hall|]); try exact Hsnap;
    (split; [apply repeat_length |
             apply Forall_forall; intros x Hx; apply repeat_spec in Hx;
             subst x; unfold Audio.is_uint8; lia]).
Qed.

Lemma ended_sound (w : World) : sound w -> sound (ended w).
Proof.
  intros Hw.
  apply sound_ext with w; try exact Hw;
    try (unfold ended;
         destruct w as [vol pl mr ur an da [el|] r ch ss ef tk]; reflexivity).
  destruct Hw as [_ [_ Hctl]]; unfold controls_ok, ended in *.
  destruct w as [vol pl mr ur an da [[ev ep]|] r ch ss ef tk];
    cbn [volume isPlaying audioElRef analyserRef dataArrayRef
         set_audioElRef] in *;
    controls_goal.
Qed.

Lemma pointermove_sound (i : nat) (rect : Pointer.DOMRect)
  (e : Pointer.PointerEvent) (w : World) :
  sound w -> sound (pointermove i rect e w).
Proof.
  intros Hw; unfold pointermove.
  destruct (nth_error (sessions w) i) as [s|]; [|exact Hw].
  destruct (listening s); [|exact Hw].
  apply sound_ext with w; try exact Hw; try reflexivity.
  destruct Hw as [_ [_ Hctl]]; exact Hctl.
Qed.

Lemma step_sound (w : World) (ev : Event) : sound w -> sound (step w ev).
Proof.
  intros Hw;
    destruct ev as [h | i rect e | ok | vl st | ok | | | v h]; cbn [step].
  - now apply frame_sound.
  - now apply pointermove_sound.
  - now apply handlePlay_sound.
  - now apply handlePlay_begin_sound.
  - now apply handlePlay_end_sound.
  - now apply ended_sound.
  - now apply handlePause_sound.
  - now apply handleVolume_sound.
Qed.

Lemma step_levels (w : World) (ev : Event) :
  sound w -> levels w -> event_ok ev -> levels (step w ev).
Proof.
  intros Hw Hl Hev;
    destruct ev as [h | i rect e | ok | vl st | ok | | | v h]; cbn [step].
  - now apply frame_levels.
  - unfold pointermove.
    destruct (nth_error (sessions w) i) as [s|]; [|exact Hl].
    destruct (listening s); exact Hl.
  - now apply handlePlay_levels.
  - unfold handlePlay_begin.
    destruct w as [vol pl mr ur an da [el|] r ch ss ef tk]; exact Hl.
  - now apply handlePlay_end_levels.
  - unfold ended.
    destruct w as [vol pl mr ur an da [el|] r ch ss ef tk]; exact Hl.
  - unfold handlePause.
    destruct w as [vol pl mr ur an da [el|] r ch ss ef tk]; exact Hl.
  - now apply handleVolume_levels.
Qed.

Lemma run_sound (evs : list Event) :
  forall w, sound w -> sound (run evs w).
Proof.
  unfold run; induction evs as [|ev evs IH]; intros w Hw; cbn [fold_left].
  - exact Hw.
  - apply IH, step_sound, Hw.
Qed.

Lemma run_levels (evs : list Event) :
  forall w, sound w -> levels w -> Forall event_ok evs -> levels (run evs w).
Proof.
  unfold run; induction evs as [|ev evs IH]; intros w Hw Hl Hev;
    cbn [fold_left].
  - exact Hl.
  - inversion Hev as [|? ? H1 H2]; subst.
    apply IH; [now apply step_sound | now apply step_levels | exact H2].
Qed.

Lemma mount_sound (h0 : HostInput) : sound (mount h0 initial).
Proof. apply run_effect_sound, initial_idle. Qed.

Lemma mount_levels (h0 : HostInput) : host_ok h0 -> levels (mount h0 initial).
Proof.
  intros Hh; apply run_effect_levels;
    [apply initial_idle | apply initial_levels | exact Hh].
Qed.

Lemma unmount_torn_down (w : World) : sound w -> torn_down (unmount w).
Proof.
  intros Hw; pose proof Hw as [(i & id & s & He & _) _].
  unfold unmount; rewrite He.
  destruct (cleanup_idle i w Hw He) as (Hp & Hch & Hall & _).
  unfold torn_down.
  split; [reflexivity|]. split; [exact Hp|]. split; [exact Hch | exact Hall].
Qed.

Lemma animate_pointers (i : nat) (h : HostInput) (w : World) :
  ready i w -> pointers w -> pointers (animate i h w).
Proof.
  intros (Hur & Hef & (s & Hs & Hlive) & _) [Hm Hall].
  destruct (animate_frame i h w s Hs) as (_ & _ & M & _).
  pose proof (animate_tick i h w s Hs Hur) as Ht.
  split; [now rewrite M|].
  intros k sk Hk.
  destruct (Nat.eq_dec k i) as [->|Hne].
  - rewrite Ht in Hk; injection Hk as <-.
    rewrite (proj2 (proj2 (tick_session_clock _ _ _ _ _ _))).
    apply lerp_in_ndc; [split; discriminate | exact (Hall i s Hs) | exact Hm].
  - rewrite animate_other in Hk by assumption. now apply Hall with k.
Qed.

Lemma cleanup_pointers (i : nat) (w : World) :
  pointers w -> pointers (fst (cleanup i w)).
Proof.
  intros [Hm Hall].
  destruct (cleanup_frame i w) as (_ & _ & M & _).
  split; [now rewrite M|].
  intros k sk Hk.
  destruct (nth_error (sessions w) i) as [s|] eqn:Hs.
  - destruct (cleanup_fields i w s Hs) as (Hss & _ & _).
    rewrite Hss in Hk.
    destruct (Nat.eq_dec k i) as [->|Hne].
    + rewrite !nth_error_modify_same, Hs in Hk; cbn in Hk.
      injection Hk as <-. exact (Hall i s Hs).
    + rewrite !nth_error_modify_other in Hk by auto.
      now apply Hall with k.
  - unfold cleanup in Hk; rewrite Hs in Hk. now apply Hall with k.
Qed.

Lemma run_effect_pointers (h : HostInput) (w : World) :
  idle w -> pointers w -> pointers (run_effect h w).
Proof.
  intros Hi [Hm Hall]; unfold run_effect.
  apply animate_pointers; [exact (run_effect_ready w Hi)|].
  destruct w as [vol pl mr ur an da ae r ch ss ef tk].
  split; [exact Hm|].
  cbn [sessions set_effect set_uniformsRef set_children set_sessions] in *.
  intros k sk Hk.
  destruct (Nat.lt_ge_cases k (length ss)) as [Hlt|Hge].
  - rewrite nth_error_app1 in Hk by exact Hlt. now apply Hall with k.
  - rewrite nth_error_app2 in Hk by exact Hge.
    destruct (k - length ss)%nat as [|n]; cbn in Hk.
    + injection Hk as <-. cbn. repeat split; discriminate.
    + destruct n; discriminate.
Qed.

Lemma step_pointers (w : World) (ev : Event) :
  sound w -> pointers w -> pointer_ok ev -> pointers (step w ev).
Proof.
  intros Hw Hp Hev;
    destruct ev as [h | i rect e | ok | vl st | ok | | | v h]; cbn [step].
  - destruct (frame_tick h w Hw) as (i & id & _ & _ & Hf & Hr).
    rewrite Hf; apply animate_pointers; [exact Hr | exact Hp].
  - unfold pointermove.
    destruct (nth_error (sessions w) i) as [s|]; [|exact Hp].
    destruct (listening s); [|exact Hp].
    destruct Hp as [_ Hall]; destruct Hev as (H1 & H2 & H3 & H4).
    split; [|exact Hall].
    now apply onPointer_on_canvas.
  - unfold handlePlay.
    destruct w as [vol pl mr ur [|] da [el|] r ch ss ef tk], ok; exact Hp.
  - unfold handlePlay_begin.
    destruct w as [vol pl mr ur an da [el|] r ch ss ef tk]; exact Hp.
  - unfold handlePlay_end.
    destruct w as [vol pl mr ur [|] da [el|] r ch ss ef tk], ok; exact Hp.
  - unfold ended.
    destruct w as [vol pl mr ur an da [el|] r ch ss ef tk]; exact Hp.
  - unfold handlePause.
    destruct w as [vol pl mr ur an da [el|] r ch ss ef tk]; exact Hp.
  - pose proof (handleVolume_sound v h w Hw) as Hs; revert Hs.
    unfold handleVolume.
    set (w2 := match audioElRef (set_volume (clamp01 v) w) with
               | Some el => _
               | None => _
               end).
    assert (H2 : pointers w2).
    { unfold w2; destruct w as [vol pl mr ur an da [el|] r ch ss ef tk];
        exact Hp. }
    assert (H2s : sound w2).
    { pose proof (clamp01_unit v) as Hu.
      apply sound_ext with w; try exact Hw;
        try (unfold w2; destruct w as [vol pl mr ur an da [el|] r ch ss ef tk];
             reflexivity).
      destruct Hw as [_ [_ Hctl]]; unfold controls_ok in *.
      unfold w2; destruct w as [vol pl mr ur an da [el|] r ch ss ef tk];
        cbn [volume isPlaying audioElRef analyserRef dataArrayRef
             set_volume set_audioElRef el_volume el_paused] in *;
        controls_goal. }
    intros _.
    destruct (negb (Qeq_bool (clamp01 v) (volume w))); [|exact H2].
    destruct (effect w2) as [i|] eqn:He; [|exact H2].
    apply run_effect_pointers;
      [now apply cleanup_idle | now apply cleanup_pointers].
Qed.

(** A frame of a sound component, on its mounted session. *)
Lemma frame_mounted (h : HostInput) (w : World) :
  sound w ->
  exists i s,
    effect w = Some i /\ uniformsRef w = Some i /\
    nth_error (sessions w) i = Some s /\
    running (clock s) = true /\
    uTime (uniforms s) = elapsedTime (clock s) /\
    effect (frame h w) = Some i /\
    uniformsRef (frame h w) = Some i /\
    ticks (frame h w) = S (ticks w) /\
    nth_error (sessions (frame h w)) i
      = Some (tick_session h (mouseRef w) (analyserRef w) (dataArrayRef w)
                (S (last (raf w))) s).
Proof.
  intros Hw.
  destruct (frame_tick h w Hw) as (i & id & He & Hp & Hf & Hr).
  destruct Hw as [(i' & id' & s & He' & Hur & Hs & _ & _ & _ & _ & Hrun & Hut) _].
  assert (i' = i) by congruence; subst i'.
  set (w1 := set_raf (cancel id (raf w)) w) in *.
  assert (Hs1 : nth_error (sessions w1) i = Some s) by exact Hs.
  assert (Hur1 : uniformsRef w1 = Some i) by exact Hur.
  destruct (animate_frame i h w1 s Hs1) as (_ & _ & _ & U & _ & _ & _ & E & T & _).
  pose proof (animate_tick i h w1 s Hs1 Hur1) as Ht.
  exists i, s. rewrite Hf.
  split; [exact He|]. split; [exact Hur|]. split; [exact Hs|].
  split; [exact Hrun|]. split; [exact Hut|].
  split; [rewrite E; exact He|].
  split; [rewrite U; exact Hur|].
  split; [rewrite T; reflexivity|].
  exact Ht.
Qed.

Lemma reached_sound (h0 : HostInput) (evs : list Event) :
  sound (reached h0 evs).
Proof. apply run_sound, mount_sound. Qed.

Lemma reached_levels (h0 : HostInput) (evs : list Event) :
  host_ok h0 -> Forall event_ok evs -> levels (reached h0 evs).
Proof.
  intros Hh Hev; apply run_levels;
    [apply mount_sound | now apply mount_levels | exact Hev].
Qed.

(** While the component is mounted, whatever the events (volume changes
    that re-run the effect among them): the mount element holds exactly
    one canvas, that of the mounted session; exactly one animation frame
    callback waits, the one whose handle that session holds; that
    session is subscribed and not disposed; and every earlier session is
    unsubscribed and disposed. *)
Theorem one_canvas_one_loop (h0 : HostInput) (evs : list Event) :
  exists i id s,
    effect (reached h0 evs) = Some i /\
    uniformsRef (reached h0 evs) = Some i /\
    nth_error (sessions (reached h0 evs)) i = Some s /\
    rafId s = Some id /\
    pending (raf (reached h0 evs)) = [(id, i)] /\
    children (reached h0 evs) = [i] /\
    live s /\
    forall k sk,
      nth_error (sessions (reached h0 evs)) k = Some sk -> k <> i ->
      released sk.
Proof.
  destruct (reached_sound h0 evs)
    as [(i & id & s & He & Hur & Hs & Hid & Hp & Hch & Hlive & _) [Hall _]].
  exists i, id, s. repeat (split; [assumption|]).
  intros k sk Hk Hne; apply Hall with k; [exact Hk | congruence].
Qed.


(** As long as the analyser hands out bytes, in every state the
    component reaches the audio uniform lies in [0,1], the cube scale in
    [1, 2.4], and the snapshot array, once created, has 256 entries, all
    bytes. *)
Theorem levels_stay_in_range (h0 : HostInput) (evs : list Event) :
  host_ok h0 -> Forall event_ok evs ->
  (forall k s,
     nth_error (sessions (reached h0 evs)) k = Some s ->
     in_unit (uAudio (uniforms s)) /\ scale_ok (cube_scale s)) /\
  (exists u, current_uniforms (reached h0 evs) = Some u /\ in_unit (uAudio u)) /\
  (forall a,
     dataArrayRef (reached h0 evs) = Some a ->
     length a = 256%nat /\ Audio.well_formed a).
Proof.
  intros Hh Hev.
  destruct (reached_levels h0 evs Hh Hev) as [Hall Hsnap].
  destruct (reached_sound h0 evs) as [(i & id & s & _ & Hur & Hs & _) _].
  split; [exact Hall|]. split.
  - exists (uniforms s); unfold current_uniforms; rewrite Hur, Hs.
    split; [reflexivity | exact (proj1 (Hall i s Hs))].
  - intros a Ha; unfold snapshot_wf in Hsnap; now rewrite Ha in Hsnap.
Qed.

(** The theorem above after a mount, a successful Play and one frame
    whose data start with four full-scale bins. *)
Lemma levels_stay_in_range_witness :
  host_ok (mkHostInput 0 []) /\
  Forall event_ok [EPlay true; EFrame (mkHostInput 16 [255; 255; 255; 255]%Z)] /\
  exists u,
    current_uniforms
      (reached (mkHostInput 0 [])
         [EPlay true; EFrame (mkHostInput 16 [255; 255; 255; 255]%Z)])
      = Some u /\
    in_unit (uAudio u).
Proof.
  assert (Hh : host_ok (mkHostInput 0 [])) by constructor.
  assert (Hev : Forall event_ok
                  [EPlay true; EFrame (mkHostInput 16 [255; 255; 255; 255]%Z)]).
  { repeat constructor; unfold Audio.is_uint8; lia. }
  split; [exact Hh|]. split; [exact Hev|].
  exact (proj1 (proj2 (levels_stay_in_range _ _ Hh Hev))).
Defined.

(** While the component is mounted every animation frame executes
    exactly one tick: the tick counter and the frame counter of the
    mounted session go up by one, and the component stays mounted on the
    same session. *)
Theorem one_tick_per_frame (h0 : HostInput) (evs : list Event)
  (h : HostInput) :
  ticks (frame h (reached h0 evs)) = S (ticks (reached h0 evs)) /\
  effect (frame h (reached h0 evs)) = effect (reached h0 evs) /\
  exists s s',
    mounted_session (reached h0 evs) = Some s /\
    mounted_session (frame h (reached h0 evs)) = Some s' /\
    frames s' = S (frames s).
Proof.
  destruct (frame_mounted h _ (reached_sound h0 evs))
    as (i & s & He & _ & Hs & _ & _ & He' & _ & T & Ht).
  split; [exact T|]. split; [now rewrite He, He'|].
  exists s; eexists.
  unfold mounted_session; rewrite He, He'.
  split; [exact Hs|]. split; [exact Ht|].
  apply tick_session_flags.
Qed.

(** The uniforms follow the host: after the mount, whose first tick
    starts the clock, the time uniform is 0, the audio uniform 0 and
    the pointer uniform (0,0); from then on every frame adds to the time
    uniform the host time gone by since the previous tick, in seconds,
    so it never goes backward while the host time does not, and moves
    the pointer uniform one smoother step towards the raw pointer
    sample. *)
Theorem frame_advances_uniforms (h0 : HostInput) (evs : list Event)
  (h : HostInput) :
  (exists u,
     current_uniforms (mount h0 initial) = Some u /\
     uTime u = 0 /\ uAudio u = Num 0 /\ veq (uMouse u) (mkVector2 0 0)) /\
  exists s s',
    mounted_session (reached h0 evs) = Some s /\
    mounted_session (frame h (reached h0 evs)) = Some s' /\
    current_uniforms (frame h (reached h0 evs)) = Some (uniforms s') /\
    uTime (uniforms s')
      = uTime (uniforms s) + (now h - oldTime (clock s)) / 1000 /\
    oldTime (clock s') = now h /\
    (oldTime (clock s) <= now h -> uTime (uniforms s) <= uTime (uniforms s')) /\
    uMouse (uniforms s')
      = Pointer.current
          (Pointer.step_000
             (Pointer.mkSmoother (uMouse (uniforms s))
                (mouseRef (reached h0 evs)))).
Proof.
  split.
  { eexists; split; [vm_compute; reflexivity|].
    repeat split; reflexivity. }
  destruct (frame_mounted h _ (reached_sound h0 evs))
    as (i & s & He & Hur & Hs & Hrun & Hut & He' & Hur' & _ & Ht).
  set (s' := tick_session _ _ _ _ _ s) in Ht.
  destruct (tick_session_clock h (mouseRef (reached h0 evs))
              (analyserRef (reached h0 evs)) (dataArrayRef (reached h0 evs))
              (S (last (raf (reached h0 evs)))) s)
    as (C1 & C2 & C3).
  fold s' in C1, C2, C3.
  exists s, s'.
  unfold mounted_session, current_uniforms; rewrite He, He', Hur', Ht.
  split; [exact Hs|]. split; [reflexivity|]. split; [reflexivity|].
  assert (Hu : uTime (uniforms s')
               = uTime (uniforms s) + (now h - oldTime (clock s)) / 1000).
  { rewrite C2; unfold getElapsedTime; rewrite Hrun; cbn [snd].
    now rewrite Hut. }
  split; [exact Hu|].
  split; [rewrite C1; unfold getElapsedTime; now rewrite Hrun|].
  split.
  { intros Hle; rewrite Hu.
    assert (0 <= (now h - oldTime (clock s)) / 1000).
    { apply Qle_shift_div_l; [reflexivity|]. lra. }
    lra. }
  rewrite C3; reflexivity.
Qed.

(** After the cleanup of part_000 nothing of the component is left in
    the page: the mount element has no child, no callback waits, every
    session is unsubscribed and disposed, and a pointer event on any of
    the old canvases changes nothing. *)
Theorem unmount_releases_everything (h0 : HostInput) (evs : list Event) :
  effect (unmount (reached h0 evs)) = None /\
  children (unmount (reached h0 evs)) = [] /\
  pending (raf (unmount (reached h0 evs))) = [] /\
  (forall k s,
     nth_error (sessions (unmount (reached h0 evs))) k = Some s -> released s) /\
  (forall i rect e,
     pointermove i rect e (unmount (reached h0 evs))
       = unmount (reached h0 evs)).
Proof.
  destruct (unmount_torn_down _ (reached_sound h0 evs)) as (He & Hp & Hch & Hall).
  repeat (split; [assumption|]).
  intros i rect e; unfold pointermove.
  destruct (nth_error (sessions (unmount (reached h0 evs))) i) as [s|] eqn:Hs;
    [|reflexivity].
  destruct (Hall i s Hs) as (_ & Hl & _). now rewrite Hl.
Qed.

(** Setting the volume twice to the same value is setting it once: the
    second call changes nothing and does not re-run the effect. *)
Theorem handleVolume_idempotent (v : Q) (h1 h2 : HostInput) (w : World) :
  handleVolume v h2 (handleVolume v h1 w) = handleVolume v h1 w.
Proof.
  assert (Hfix : forall w' : World,
             volume w' = clamp01 v ->
             (forall el, audioElRef w' = Some el -> el_volume el = clamp01 v) ->
             handleVolume v h2 w' = w').
  { intros w' Hv Hel; unfold handleVolume.
    rewrite Hv, Qeq_bool_refl; cbn [negb].
    destruct w' as [vol pl mr ur an da [[ev ep]|] r ch ss ef tk];
      cbn [volume audioElRef set_volume set_audioElRef el_paused] in *.
    - rewrite <- Hv. specialize (Hel _ eq_refl); cbn in Hel.
      rewrite Hv, <- Hel. reflexivity.
    - now rewrite <- Hv. }
  apply Hfix.
  - unfold handleVolume.
    set (w2 := match audioElRef (set_volume (clamp01 v) w) with
               | Some el => _
               | None => _
               end).
    assert (H2 : volume w2 = clamp01 v).
    { unfold w2; destruct w as [vol pl mr ur an da [el|] r ch ss ef tk];
        reflexivity. }
    destruct (negb (Qeq_bool (clamp01 v) (volume w))); [|exact H2].
    destruct (effect w2) as [i|]; [|exact H2].
    rewrite (proj1 (run_effect_frame h1 _)), (proj1 (cleanup_frame i w2)).
    exact H2.
  - intros el; unfold handleVolume.
    set (w2 := match audioElRef (set_volume (clamp01 v) w) with
               | Some el => _
               | None => _
               end).
    assert (H2 : audioElRef w2 = Some el -> el_volume el = clamp01 v).
    { unfold w2; destruct w as [vol pl mr ur an da [el'|] r ch ss ef tk];
        cbn; intros H; [injection H as <-; reflexivity | discriminate]. }
    destruct (negb (Qeq_bool (clamp01 v) (volume w))); [|exact H2].
    destruct (effect w2) as [i|]; [|exact H2].
    destruct (run_effect_frame h1 (fst (cleanup i w2))) as (_ & _ & _ & _ & E5 & _).
    destruct (cleanup_frame i w2) as (_ & _ & _ & _ & _ & _ & C7 & _).
    rewrite E5, C7. exact H2.
Qed.

(** As long as every pointer event lies on the rectangle of its canvas,
    the raw pointer sample and the pointer uniform of every session lie
    in [-1,1]^2 in every state the component reaches. *)
Theorem pointer_uniform_in_ndc (h0 : HostInput) (evs : list Event) :
  Forall pointer_ok evs ->
  in_ndc (mouseRef (reached h0 evs)) /\
  (forall k s,
     nth_error (sessions (reached h0 evs)) k = Some s ->
     in_ndc (uMouse (uniforms s))) /\
  exists u,
    current_uniforms (reached h0 evs) = Some u /\ in_ndc (uMouse u).
Proof.
  intros Hev.
  assert (H : forall l w, sound w -> pointers w -> Forall pointer_ok l ->
                          pointers (run l w)).
  { unfold run; intros l; induction l as [|ev l IH]; intros w Hw Hp Hl;
      cbn [fold_left]; [exact Hp|].
    inversion Hl as [|? ? H1 H2]; subst.
    apply IH; [now apply step_sound | now apply step_pointers | exact H2]. }
  assert (H0 : pointers (mount h0 initial)).
  { apply run_effect_pointers; [apply initial_idle|].
    split; [cbn; repeat split; discriminate|].
    intros [|k] s Hk; discriminate. }
  destruct (H evs _ (mount_sound h0) H0 Hev) as [Hm Hall].
  destruct (reached_sound h0 evs) as [(i & id & s & _ & Hur & Hs & _) _].
  split; [exact Hm|]. split; [exact Hall|].
  exists (uniforms s); unfold current_uniforms; rewrite Hur, Hs.
  split; [reflexivity | exact (Hall i s Hs)].
Qed.

(** The theorem above after a pointer event in a corner of the canvas
    and one frame. *)
Lemma pointer_uniform_in_ndc_witness :
  Forall pointer_ok
    [EPointer 0 (Pointer.mkRect 0 0 100 100) (Pointer.mkEvent 100 0);
     EFrame (mkHostInput 16 [])] /\
  in_ndc (mouseRef
            (reached (mkHostInput 0 [])
               [EPointer 0 (Pointer.mkRect 0 0 100 100) (Pointer.mkEvent 100 0);
                EFrame (mkHostInput 16 [])])).
Proof.
  assert (Hev : Forall pointer_ok
                  [EPointer 0 (Pointer.mkRect 0 0 100 100)
                     (Pointer.mkEvent 100 0);
                   EFrame (mkHostInput 16 [])]).
  { repeat constructor; cbn; discriminate. }
  split; [exact Hev|].
  exact (proj1 (pointer_uniform_in_ndc (mkHostInput 0 []) _ Hev)).
Defined.

End Reachable.

(** ** The teardown *)

Section Teardown.

Import Js Three Browser App000 Reach.

Lemma cancel_nothing (id : nat) (r : Raf) :
  pending r = [] -> pending (cancel id r) = [].
Proof. unfold cancel; cbn [pending]; intros ->; reflexivity. Qed.

(** A cleanup closure that runs when nothing is mounted and no callback
    waits leaves it so. *)
Lemma cleanup_stays_quiet (i : nat) (w : World) :
  quiet w -> quiet (fst (cleanup i w)).
Proof.
  intros [He Hp]; split.
  - destruct (cleanup_frame i w) as (_ & _ & _ & _ & _ & _ & _ & E & _).
    now rewrite E.
  - destruct (nth_error (sessions w) i) as [s|] eqn:Hs.
    + destruct (cleanup_fields i w s Hs) as (_ & R & _); rewrite R.
      destruct (rafId s); [now apply cancel_nothing | exact Hp].
    + unfold cleanup; rewrite Hs; exact Hp.
Qed.

(** C6.  Teardown of the render loop.  In part_000, whatever happened
    since the mount, one tick is scheduled when React runs the cleanup;
    the cleanup cancels it and completes; from then on no event makes a
    tick execute (the tick counter is frozen); and running the cleanup
    closure again, of this or of any earlier session, does not throw,
    schedules nothing and leaves the counter frozen.  In part_001 the
    effect throws at its first statement, before the loop is started:
    no tick is ever scheduled or executed, there is no cleanup to run,
    and the teardown, run once or twice, does nothing and does not
    throw. *)
Theorem teardown_stops_ticks (h0 : HostInput) (before after : list Event)
  (n : nat) :
  let w0 := reached h0 before in
  let w := unmount w0 in
  (exists i id,
     effect w0 = Some i /\ pending (raf w0) = [(id, i)] /\
     w = set_effect None (fst (cleanup i w0)) /\
     snd (cleanup i w0) = Normal tt) /\
  pending (raf w) = [] /\
  ticks w = ticks w0 /\
  ticks (run after w) = ticks w /\
  (forall j,
     snd (cleanup j w) = Normal tt /\
     pending (raf (fst (cleanup j w))) = [] /\
     ticks (run after (fst (cleanup j w))) = ticks w) /\
  (let m := App001.mount App001.initial in
   snd (App001.run_effect App001.initial)
     = App001.Threw App001.InvalidHookCall /\
   App001.cleanup_held m = false /\
   pending (App001.raf m) = [] /\
   App001.ticks (App001.frames_n n m) = 0%nat /\
   App001.unmount m = (m, App001.Completed) /\
   App001.unmount (fst (App001.unmount m)) = (m, App001.Completed)).
Proof.
  intros w0 w.
  destruct (reached_sound h0 before)
    as [(i & id & s & He & _ & _ & _ & Hp & _) _].
  fold w0 in He, Hp.
  assert (Hq : quiet w).
  { apply unmount_quiet, run_invariant, run_effect_invariant; reflexivity. }
  assert (Hw : w = set_effect None (fst (cleanup i w0))).
  { unfold w, unmount; now rewrite He. }
  split.
  { exists i, id. repeat (split; [assumption|]). apply cleanup_normal. }
  split; [exact (proj2 Hq)|].
  split.
  { rewrite Hw.
    destruct (cleanup_frame i w0) as (_ & _ & _ & _ & _ & _ & _ & _ & T & _).
    rewrite <- T; reflexivity. }
  split; [exact (proj2 (run_quiet after w Hq))|].
  split.
  { intros j; split; [apply cleanup_normal|].
    pose proof (cleanup_stays_quiet j w Hq) as Hq'.
    split; [exact (proj2 Hq')|].
    rewrite (proj2 (run_quiet after _ Hq')).
    destruct (cleanup_frame j w) as (_ & _ & _ & _ & _ & _ & _ & _ & T & _).
    exact T. }
  cbv zeta.
  split; [reflexivity|]. split; [reflexivity|]. split; [reflexivity|].
  split; [|split; reflexivity].
  rewrite frames001_idle; reflexivity.
Qed.

End Teardown.
